(** * FIFA wage model dashboard ([src/App.js])

    A shallow embedding of the two pieces of logic of the dashboard:

    - the linear predictor ([predictedUSD], with the coefficient loader
      [useCoefficients] and the display formatter [fmtUSD]);
    - the declarative Vega-Lite transforms ([calcGroupExpr], [wageHistSpec],
      [boxSpec]).

    JavaScript numbers are IEEE-754 binary64 values; they are modelled by
    Rocq's primitive [float], whose operations are specified against
    [SpecFloat] by the axioms of [FloatAxioms].  JavaScript strings are
    modelled by [string]; all the patterns the program searches for are
    ASCII, so substring containment is the same on UTF-8 bytes and on UTF-16
    code units. *)

From Stdlib Require Import ZArith Floats Lia Bool List Ascii Reals Lra.
From stdpp Require Import base strings gmap pretty.
Import ListNotations.

Set Warnings "-inexact-float".

#[local] Open Scope float_scope.

(** ** JavaScript numbers and the host's built-ins *)

Module JS.

(** [ToBoolean] on a Number: [+0], [-0] and [NaN] are falsy. *)
Definition ToBoolean (x : float) : bool := negb (is_zero x || is_nan x).

(** [v || 0], where [v] is the result of a property lookup and [None]
    stands for [undefined]. *)
Definition or_zero (v : option float) : float :=
  match v with
  | Some x => if ToBoolean x then x else 0
  | None => 0
  end.

(** The global [isFinite] on a Number. *)
Definition isFinite (x : float) : bool := is_finite x.

(** A value that is a Number or a String: a JSON field, or the state behind
    an [<input>] (a Number initially, the input's text afterwards). *)
Inductive value :=
| VNum (x : float)
| VStr (s : string).

(** The built-ins the program calls.  ECMA-262 leaves [Math.exp]
    implementation-approximated, and the two others are long algorithms of
    the language and of its internationalisation API; the program is
    verified against any host.
    - [Math_exp] is [Math.exp];
    - [StringToNumber] is the conversion behind [Number(s)] and [+s] for a
      String [s] ([NaN] when [s] is not a numeric literal);
    - [toLocaleString x] is [x.toLocaleString("en-US", {style: "currency",
      currency: "USD", maximumFractionDigits: 0})]. *)
Class Runtime := {
  Math_exp : float -> float;
  StringToNumber : string -> float;
  toLocaleString : float -> string;
}.

(** [Number(v)] and unary [+v]. *)
Definition ToNumber `{Runtime} (v : value) : float :=
  match v with
  | VNum x => x
  | VStr s => StringToNumber s
  end.

End JS.

Import JS.

(** ** Fixed-point arithmetic *)

(** Squaring in fixed-point arithmetic with [p] fractional bits, rounded
    down and rounded up, and its iteration. *)
Definition sq_down (p a : Z) : Z := (a * a / 2 ^ p)%Z.
Definition sq_up (p a : Z) : Z := ((a * a + 2 ^ p - 1) / 2 ^ p)%Z.

Fixpoint iter_sq (sq : Z -> Z) (n : nat) (a : Z) : Z :=
  match n with
  | O => a
  | S n' => iter_sq sq n' (sq a)
  end.

(** ** A reference host

    An executable instance of [JS.Runtime], used to run the model on
    concrete inputs. *)

Module Ref.

(** The quotient [num / den] rounded to the nearest binary64 value, ties to
    even, with sign [s]. *)
Definition round_ratio (s : bool) (num den : positive) : float :=
  SF2Prim (let '(q, e, l) := SFdiv_core_binary prec emax (Zpos num) 0 (Zpos den) 0 in
           binary_round_aux prec emax s q e l).

(** [m * 10 ^ e10], rounded. *)
Definition decimal_to_float (s : bool) (m : N) (e10 : Z) : float :=
  match m with
  | N0 => if s then neg_zero else 0
  | Npos p =>
      if (0 <=? e10)%Z then round_ratio s (p * Z.to_pos (10 ^ e10)) 1
      else round_ratio s p (Z.to_pos (10 ^ (- e10)))
  end.

Definition is_ws (c : ascii) : bool :=
  let n := N_of_ascii c in ((9 <=? n) && (n <=? 13) || (n =? 32))%N.

Fixpoint ltrim (s : string) : string :=
  match s with
  | String c s' => if is_ws c then ltrim s' else s
  | EmptyString => EmptyString
  end.

Definition trim (s : string) : string :=
  String.rev (ltrim (String.rev (ltrim s))).

Definition digit (c : ascii) : option N :=
  let n := N_of_ascii c in
  if ((48 <=? n) && (n <=? 57))%N then Some (n - 48)%N else None.

(** The longest run of decimal digits at the head of [s]: its value after
    [acc], its length after [cnt], and the rest of [s]. *)
Fixpoint read_digits (s : string) (acc : N) (cnt : nat) : N * nat * string :=
  match s with
  | String c s' =>
      match digit c with
      | Some d => read_digits s' (10 * acc + d)%N (S cnt)
      | None => (acc, cnt, s)
      end
  | EmptyString => (acc, cnt, s)
  end.

Definition read_sign (s : string) : bool * string :=
  match s with
  | String "+" s' => (false, s')
  | String "-" s' => (true, s')
  | _ => (false, s)
  end.

(** The exponent part of a decimal literal, when [s] is one or is empty. *)
Definition read_exponent (s : string) : option Z :=
  match s with
  | EmptyString => Some 0%Z
  | String c s' =>
      if (Ascii.eqb c "e" || Ascii.eqb c "E")%bool then
        let '(neg, s'') := read_sign s' in
        match read_digits s'' 0%N 0%nat with
        | (_, O, _) => None
        | (e, _, EmptyString) => Some (if neg then (- Z.of_N e)%Z else Z.of_N e)
        | _ => None
        end
      else None
  end.

(** [StrDecimalLiteral] of ECMA-262 (signed; [Infinity], or digits with an
    optional fraction and exponent), on ASCII text. *)
Definition StrDecimalLiteral (s : string) : float :=
  let '(neg, body) := read_sign s in
  if String.eqb body "Infinity" then (if neg then neg_infinity else infinity)
  else
    let '(ip, n1, r1) := read_digits body 0%N 0%nat in
    let '(m, n2, r2) :=
      match r1 with
      | String "." r1' => read_digits r1' ip 0%nat
      | _ => (ip, 0%nat, r1)
      end in
    match (n1 + n2)%nat, read_exponent r2 with
    | S _, Some e => decimal_to_float neg m (e - Z.of_nat n2)
    | _, _ => nan
    end.

Definition radix_digit (base : N) (c : ascii) : option N :=
  let n := N_of_ascii c in
  let v := if ((48 <=? n) && (n <=? 57))%N then Some (n - 48)%N
           else if ((97 <=? n) && (n <=? 102))%N then Some (n - 87)%N
           else if ((65 <=? n) && (n <=? 70))%N then Some (n - 55)%N
           else None in
  match v with
  | Some d => if (d <? base)%N then Some d else None
  | None => None
  end.

Fixpoint read_radix (base : N) (s : string) (acc : N) : option N :=
  match s with
  | EmptyString => Some acc
  | String c s' =>
      match radix_digit base c with
      | Some d => read_radix base s' (base * acc + d)%N
      | None => None
      end
  end.

(** [NonDecimalIntegerLiteral] of ECMA-262: [0x], [0o] or [0b] and digits
    of that base; [None] when [s] does not start as one. *)
Definition NonDecimalIntegerLiteral (s : string) : option float :=
  match s with
  | String "0" (String c ((String _ _) as body)) =>
      let base :=
        if (Ascii.eqb c "x" || Ascii.eqb c "X")%bool then Some 16%N
        else if (Ascii.eqb c "o" || Ascii.eqb c "O")%bool then Some 8%N
        else if (Ascii.eqb c "b" || Ascii.eqb c "B")%bool then Some 2%N
        else None in
      match base with
      | Some b =>
          match read_radix b body 0%N with
          | Some n => Some (decimal_to_float false n 0)
          | None => Some nan
          end
      | None => None
      end
  | _ => None
  end.

(** [StringToNumber] on ASCII text: surrounding white space is dropped, the
    empty text is [0], a numeric literal is its value, anything else is
    [NaN]. *)
Definition StringToNumber (s : string) : float :=
  let t := trim s in
  if String.eqb t "" then 0
  else match NonDecimalIntegerLiteral t with
       | Some v => v
       | None => StrDecimalLiteral t
       end.

(** [Math.exp], with the special values ECMA-262 prescribes.  From 710 on
    the exponential exceeds every binary64 value, and up to -746 it is
    below half the least positive one.  Between the two, for
    [x = m * 2 ^ e], [exp |x|] is computed as
    [(1 + |x| / 2 ^ 100) ^ (2 ^ 100)] by a hundred squarings in fixed-point
    arithmetic with 220 fractional bits, rounded down: a lower bound of
    [exp |x|], short of it by less than one part in [2 ^ 79].  The result
    is that number, or its inverse for a negative [x], rounded to the
    nearest binary64 value. *)
Definition exp_squarings : nat := 100.
Definition exp_bits : Z := 220.

Definition exp_fixed (m : positive) (e : Z) : Z :=
  let sh := (e - Z.of_nat exp_squarings + exp_bits)%Z in
  let t := if (0 <=? sh)%Z then (Zpos m * 2 ^ sh)%Z else (Zpos m / 2 ^ (- sh))%Z in
  iter_sq (sq_down exp_bits) exp_squarings (2 ^ exp_bits + t)%Z.

Definition Math_exp (x : float) : float :=
  match Prim2SF x with
  | S754_nan => nan
  | S754_infinity s => if s then 0 else infinity
  | S754_zero _ => 1
  | S754_finite s m e =>
      if 710 <=? x then infinity
      else if x <=? -746 then 0
      else if s then round_ratio false (Z.to_pos (2 ^ exp_bits)) (Z.to_pos (exp_fixed m e))
      else round_ratio false (Z.to_pos (exp_fixed m e)) (Z.to_pos (2 ^ exp_bits))
  end.

(** The integer nearest to [m * 2 ^ e], ties away from zero. *)
Definition round_half_expand (m : positive) (e : Z) : Z :=
  if (0 <=? e)%Z then (Zpos m * 2 ^ e)%Z
  else let d := (2 ^ (- e))%Z in ((2 * Zpos m + d) / (2 * d))%Z.

(** Digits in groups of three, from a reversed list of digits. *)
Fixpoint group3 (fuel : nat) (rev_digits : list ascii) : list ascii :=
  match fuel, rev_digits with
  | S fuel', a :: b :: c :: ((_ :: _) as rest) =>
      a :: b :: c :: ","%char :: group3 fuel' rest
  | _, _ => rev_digits
  end.

Definition with_commas (digits : string) : string :=
  let l := rev (String.list_ascii_of_string digits) in
  String.string_of_list_ascii (rev (group3 (length l) l)).

(** US-dollar formatting with no fraction digits.  [fmtUSD] only calls it
    on finite values. *)
Definition toLocaleString (x : float) : string :=
  match Prim2SF x with
  | S754_zero s => if s then "-$0" else "$0"
  | S754_finite s m e =>
      (if s then "-$" else "$") +:+ with_commas (pretty (round_half_expand m e))
  | S754_infinity s => if s then "-$∞" else "$∞"
  | S754_nan => "$NaN"
  end%string.

#[export] Instance runtime : JS.Runtime := {|
  JS.Math_exp := Math_exp;
  JS.StringToNumber := StringToNumber;
  JS.toLocaleString := toLocaleString;
|}.

End Ref.

(** ** Settings ([App.js], lines 5-13) *)

Definition WAGES_URL : string := "/fifa_clean.csv".
Definition COEF_URL : string := "/model_coefficients.json".
Definition TARGET_IS_LOG : bool := true.
Definition USD_PER_EUR : float := 1.08.

(** ** The coefficient loader ([useCoefficients])

    The hook's state starts as the empty object and is replaced when the
    fetch resolves.  A record of the coefficient resource carries a term
    name and an estimate that is a Number or a String.

    The object [m] is modelled by a finite map of its own properties.  The
    predictor reads it at ["Intercept"], ["age"], ["overall_rating"] and at
    keys that start with ["position_group_"] or ["preferred_foot_"]; no
    object inherits a property of such a name, so reading the map is
    reading the object. *)

Record CoefRecord := {
  term : string;
  estimate : JS.value;
}.

(** [m[k] = v] for a Number [v]: an own property is written, except at
    ["__proto__"], whose inherited setter ignores a Number. *)
Definition assign (m : gmap string float) (k : string) (v : float)
  : gmap string float :=
  if String.eqb k "__proto__" then m else <[k := v]> m.

(** [arr.forEach((d) => (m[d.term] = +d.estimate))] on [m = {}]. *)
Definition collect `{Runtime} (arr : list CoefRecord) : gmap string float :=
  fold_left (fun m d => assign m (term d) (ToNumber (estimate d))) arr ∅.

(** The value of [coefs]: [{}] until the response [arr] has arrived. *)
Definition useCoefficients `{Runtime} (response : option (list CoefRecord))
  : gmap string float :=
  match response with
  | Some arr => collect arr
  | None => ∅
  end.

(** ** The display formatter ([fmtUSD]) *)

Definition unavailable : string := "—".

Definition fmtUSD `{Runtime} (x : float) : string :=
  if negb (JS.isFinite x) then unavailable else toLocaleString x.

(** ** The predictor ([predictedUSD])

    [FeatureVector] holds what the [useMemo] callback reads: [Number(age)],
    [Number(rating)], [pg] and [foot]. *)

Record FeatureVector := {
  age : float;
  rating : float;
  pg : string;
  foot : string;
}.

(** The accumulation of [eta], statement by statement. *)
Definition eta (coefs : gmap string float) (f : FeatureVector) : float :=
  let eta := 0 in
  let eta := eta + or_zero (coefs !! "Intercept"%string) in
  let eta := eta + or_zero (coefs !! "age"%string) * age f in
  let eta := eta + or_zero (coefs !! "overall_rating"%string) * rating f in
  let eta := eta + or_zero (coefs !! ("position_group_" +:+ pg f)) in
  let eta := eta + or_zero (coefs !! ("preferred_foot_" +:+ foot f)) in
  eta.

(** The callback's body, with the two settings as parameters. *)
Definition predict `{Runtime} (targetIsLog : bool) (currencyRate : float)
    (coefs : gmap string float) (f : FeatureVector) : float :=
  let wageEur := if targetIsLog then Math_exp (eta coefs f) else eta coefs f in
  wageEur * currencyRate.

(** The component's state. *)
Record State := {
  posFilter : string;
  age_state : JS.value;
  rating_state : JS.value;
  foot_state : string;
  pg_state : string;
}.

Definition initial_state : State := {|
  posFilter := "All";
  age_state := VNum 24;
  rating_state := VNum 85;
  foot_state := "Right";
  pg_state := "Midfielder";
|}.

Definition features `{Runtime} (st : State) : FeatureVector := {|
  age := ToNumber (age_state st);
  rating := ToNumber (rating_state st);
  pg := pg_state st;
  foot := foot_state st;
|}.

Definition predictedUSD `{Runtime} (coefs : gmap string float) (st : State) : float :=
  predict TARGET_IS_LOG USD_PER_EUR coefs (features st).

(** ** The category deriver ([calcGroupExpr])

    [indexof(s, sub)] of the Vega expression language, on Strings: the index
    of the first occurrence of [sub] in [s], [-1] when there is none. *)

Fixpoint indexof_from (i : Z) (s sub : string) {struct s} : Z :=
  if String.prefix sub s then i
  else match s with
       | EmptyString => (-1)%Z
       | String _ s' => indexof_from (i + 1) s' sub
       end.

Definition indexof (s sub : string) : Z := indexof_from 0 s sub.

(** The conditional expression of [calcGroupExpr], as a function of
    [datum.positions]. *)
Definition deriveGroup (positions : string) : string :=
  if (indexof positions "GK" >=? 0)%Z then "Goalkeeper"
  else if ((indexof positions "CB" >=? 0) || (indexof positions "LB" >=? 0)
           || (indexof positions "RB" >=? 0) || (indexof positions "RWB" >=? 0)
           || (indexof positions "LWB" >=? 0))%Z then "Defender"
  else if ((indexof positions "CM" >=? 0) || (indexof positions "CDM" >=? 0)
           || (indexof positions "CAM" >=? 0) || (indexof positions "RM" >=? 0)
           || (indexof positions "LM" >=? 0) || (indexof positions "RW" >=? 0)
           || (indexof positions "LW" >=? 0))%Z then "Midfielder"
  else "Forward".

(** ** The transform pipeline ([wageHistSpec], [boxSpec])

    A row of the wage dataset, with the two fields the transforms attach
    ([None] while a field is not set). *)

Record Datum := {
  positions : string;
  wage_euro : float;
  group : option string;
  wage_usd : option float;
}.

Definition calcGroupExpr (datum : Datum) : string := deriveGroup (positions datum).

Definition wageUsdExpr (datum : Datum) : float := USD_PER_EUR * wage_euro datum.

(** [datum.group == 'v']: equality of Strings; [undefined] equals none. *)
Definition group_is (v : string) (datum : Datum) : bool :=
  match group datum with
  | Some g => String.eqb g v
  | None => false
  end.

(** [posFilter === "All" ? "true" : `datum.group == '${posFilter}'`].  The
    code splices [posFilter] between two quotes without escaping it, and the
    charting library parses the text.  The function below is what that text
    denotes when [posFilter] holds no quote and no backslash, as the five
    options of the select box ([filter_options]) do, and [setPosFilter] is
    only called with one of them; for another string the spliced text can
    be a different expression, which this function does not describe. *)
Definition filterExpr (posFilter : string) : Datum -> bool :=
  if String.eqb posFilter "All" then (fun _ => true) else group_is posFilter.

Definition filter_options : list string :=
  ["All"; "Defender"; "Midfielder"; "Forward"; "Goalkeeper"]%string.

(** The entries of a [transform] array. *)
Inductive Transform :=
| CalculateGroup (e : Datum -> string)      (* { calculate: e, as: "group" } *)
| CalculateWageUsd (e : Datum -> float)    (* { calculate: e, as: "wage_usd" } *)
| Filter (e : Datum -> bool).              (* { filter: e } *)

Definition apply_transform (t : Transform) (rows : list Datum) : list Datum :=
  match t with
  | CalculateGroup e =>
      map (fun d => {| positions := positions d; wage_euro := wage_euro d;
                       group := Some (e d); wage_usd := wage_usd d |}) rows
  | CalculateWageUsd e =>
      map (fun d => {| positions := positions d; wage_euro := wage_euro d;
                       group := group d; wage_usd := Some (e d) |}) rows
  | Filter e => List.filter e rows
  end.

(** The stages run in the order of the array. *)
Definition run_transforms (ts : list Transform) (rows : list Datum) : list Datum :=
  fold_left (fun rows t => apply_transform t rows) ts rows.

Definition is_filter (t : Transform) : bool :=
  match t with Filter _ => true | _ => false end.

(** The mark and encoding of a chart. *)
Inductive Mark :=
| BarCount (maxbins : positive)  (* bar; x: wage_usd, binned; y: count *)
| BoxplotMinMax                  (* boxplot; x: group; y: wage_usd *)
| CoefBars.                      (* bar and rule over the coefficient file *)

Record ChartSpec := {
  data : string;
  transform : list Transform;
  mark : Mark;
}.

Definition wageHistSpec (posFilter : string) : ChartSpec := {|
  data := WAGES_URL;
  transform := [CalculateGroup calcGroupExpr; CalculateWageUsd wageUsdExpr;
                Filter (filterExpr posFilter)];
  mark := BarCount 30;
|}.

Definition coefSpec : ChartSpec := {|
  data := COEF_URL;
  transform := [];
  mark := CoefBars;
|}.

Definition boxSpec : ChartSpec := {|
  data := WAGES_URL;
  transform := [CalculateGroup calcGroupExpr; CalculateWageUsd wageUsdExpr];
  mark := BoxplotMinMax;
|}.

(** What the component renders: three chart specifications and the text of
    the prediction. *)
Record View := {
  hist_chart : ChartSpec;
  coef_chart : ChartSpec;
  box_chart : ChartSpec;
  predicted_text : string;
}.

Definition App `{Runtime} (coefs : gmap string float) (st : State) : View := {|
  hist_chart := wageHistSpec (posFilter st);
  coef_chart := coefSpec;
  box_chart := boxSpec;
  predicted_text := fmtUSD (predictedUSD coefs st);
|}.

(** *** The aggregate stage

    The charting library bins and summarises; the program only names the
    aggregates.  [bin_of maxbins xs x] is the bin of [x] among the observed
    values [xs], and [summary xs] the five order statistics of [xs]. *)

Record BoxStats := {
  box_min : float; box_q1 : float; box_median : float; box_q3 : float; box_max : float;
}.

Class Charting := {
  bin_of : positive -> list float -> float -> Z;
  summary : list float -> BoxStats;
}.

(** A field that is not set reads as [undefined], [NaN] as a number. *)
Definition wage_usd_value (d : Datum) : float :=
  match wage_usd d with Some x => x | None => nan end.

Fixpoint bump (k : Z) (acc : list (Z * nat)) : list (Z * nat) :=
  match acc with
  | [] => [(k, 1%nat)]
  | (k', c) :: acc' => if (k =? k')%Z then (k', S c) :: acc' else (k', c) :: bump k acc'
  end.

(** Modelled from the spec: the histogram aggregate, which the charting
    library carries out: every record falls in the bin of its [wage_usd],
    and the series lists each bin that holds a record with its count. *)
Definition histogram `{Charting} (maxbins : positive) (rows : list Datum)
  : list (Z * nat) :=
  let xs := map wage_usd_value rows in
  fold_left (fun acc x => bump (bin_of maxbins xs x) acc) xs [].

(** Modelled from the spec: the box-summary aggregate, which the charting
    library carries out: the records are grouped by [group] and each group
    is summarised by its order statistics. *)
Definition box_summary `{Charting} (rows : list Datum)
  : list (option string * BoxStats) :=
  map (fun g => (g, summary (map wage_usd_value
                               (List.filter (fun d => bool_decide (group d = g)) rows))))
      (remove_dups (map group rows)).

Inductive Series :=
| Histogram (bins : list (Z * nat))
| Boxes (groups : list (option string * BoxStats))
| Unmodelled.

(** The series a chart over the wage dataset shows. *)
Definition series `{Charting} (spec : ChartSpec) (dataset : list Datum) : Series :=
  let rows := run_transforms (transform spec) dataset in
  match mark spec with
  | BarCount maxbins => Histogram (histogram maxbins rows)
  | BoxplotMinMax => Boxes (box_summary rows)
  | CoefBars => Unmodelled
  end.

(** A reference charting library, for running the model: equal-width bins
    between the least and the greatest observed value, and quartiles by
    linear interpolation between order statistics. *)
Module RefChart.

Definition fmin (x y : float) : float := if y <? x then y else x.
Definition fmax (x y : float) : float := if x <? y then y else x.

(** The integer part of a finite non-negative value. *)
Definition floor_nonneg (x : float) : Z :=
  match Prim2SF x with
  | S754_finite false m e => if (0 <=? e)%Z then (Zpos m * 2 ^ e)%Z else (Zpos m / 2 ^ (- e))%Z
  | _ => 0%Z
  end.

Definition of_nat (n : nat) : float := of_uint63 (Uint63.of_Z (Z.of_nat n)).

Definition equal_width_bin (maxbins : positive) (xs : list float) (x : float) : Z :=
  match xs with
  | [] => 0%Z
  | x0 :: xs' =>
      let lo := fold_left fmin xs' x0 in
      let hi := fold_left fmax xs' x0 in
      let width := (hi - lo) / of_nat (Pos.to_nat maxbins) in
      Z.min (Zpos maxbins - 1) (floor_nonneg ((x - lo) / width))
  end.

Fixpoint insert_sorted (x : float) (l : list float) : list float :=
  match l with
  | [] => [x]
  | y :: l' => if x <=? y then x :: l else y :: insert_sorted x l'
  end.

Definition sort (l : list float) : list float := fold_right insert_sorted [] l.

(** The [k]-th quartile of a sorted list. *)
Definition quartile (sorted : list float) (k : nat) : float :=
  let h := ((length sorted - 1) * k)%nat in
  let a := nth (h / 4) sorted nan in
  let b := nth (h / 4 + 1) sorted a in
  a + of_nat (h mod 4) / 4 * (b - a).

Definition five_numbers (xs : list float) : BoxStats :=
  let sorted := sort xs in
  {| box_min := quartile sorted 0; box_q1 := quartile sorted 1;
     box_median := quartile sorted 2; box_q3 := quartile sorted 3;
     box_max := quartile sorted 4 |}.

#[export] Instance charting : Charting := {|
  bin_of := equal_width_bin;
  summary := five_numbers;
|}.

End RefChart.

(** [setPosFilter(v)]: the only state a change of the filter touches. *)
Definition setPosFilter (v : string) (st : State) : State := {|
  posFilter := v;
  age_state := age_state st;
  rating_state := rating_state st;
  foot_state := foot_state st;
  pg_state := pg_state st;
|}.

(** ** The statements of the specification, in its own words *)

(** A coefficient as the specification reads it: the stored estimate, and
    [0] for a term that is absent from the map. *)
Definition coef_or_absent (coefs : gmap string float) (k : string) : float :=
  match coefs !! k with Some x => x | None => 0 end.

Definition eta_as_stated (coefs : gmap string float) (f : FeatureVector) : float :=
  coef_or_absent coefs "Intercept" + coef_or_absent coefs "age" * age f
  + coef_or_absent coefs "overall_rating" * rating f
  + coef_or_absent coefs ("position_group_" +:+ pg f)
  + coef_or_absent coefs ("preferred_foot_" +:+ foot f).

Definition predict_as_stated `{Runtime} (targetIsLog : bool) (currencyRate : float)
    (coefs : gmap string float) (f : FeatureVector) : float :=
  (if targetIsLog then Math_exp (eta_as_stated coefs f) else eta_as_stated coefs f)
  * currencyRate.

(** A coefficient as the program reads it: [coefs[k] || 0]. *)
Definition coef (coefs : gmap string float) (k : string) : float :=
  or_zero (coefs !! k).

(** [sub] occurs in [s]. *)
Definition contains (s sub : string) : Prop :=
  exists pre post : string, s = (pre +:+ sub +:+ post)%string.

(** A record of the resource whose estimate is a String that is not a
    numeric literal has been stored as [NaN] under its term. *)
Definition silently_coerced `{Runtime} (arr : list CoefRecord)
    (coefs : gmap string float) : Prop :=
  exists d s, In d arr /\ estimate d = VStr s /\ StringToNumber s = nan
              /\ coefs !! term d = Some nan.

(** The contributions of the two numeric features to [eta]. *)
Definition age_term (coefs : gmap string float) (f : FeatureVector) : float :=
  or_zero (coefs !! "age"%string) * age f.

Definition rating_term (coefs : gmap string float) (f : FeatureVector) : float :=
  or_zero (coefs !! "overall_rating"%string) * rating f.

(** The coefficient of [key] replaced by [k] times its value. *)
Definition scale_coef (key : string) (k : float) (coefs : gmap string float)
  : gmap string float :=
  alter (fun b => k * b) key coefs.

Definition divide_age (k : float) (f : FeatureVector) : FeatureVector :=
  {| age := age f / k; rating := rating f; pg := pg f; foot := foot f |}.

Definition divide_rating (k : float) (f : FeatureVector) : FeatureVector :=
  {| age := age f; rating := rating f / k; pg := pg f; foot := foot f |}.

(** The significand of a normal power of two: the leading bit alone. *)
Definition two52 : positive := 4503599627370496.

(** [k] is [2 ^ j] for the [j] that [log2_of k] gives: a positive normal
    binary64 value whose significand is [two52]. *)
Definition is_pow2 (k : float) : bool :=
  match Prim2SF k with
  | S754_finite false m _ => Pos.eqb m two52
  | _ => false
  end.

Definition log2_of (k : float) : Z :=
  match Prim2SF k with
  | S754_finite _ _ e => (e + 52)%Z
  | _ => 0%Z
  end.

(** [x * 2 ^ j] is a binary64 value with the significand of [x]: scaling
    [x] by [2 ^ j] neither overflows nor drops bits.  Zeros, infinities and
    [NaN] scale to themselves. *)
Definition scales_exactly (j : Z) (x : float) : bool :=
  match Prim2SF x with
  | S754_finite _ m e => SpecFloat.bounded prec emax m (e + j)
  | _ => true
  end.

(** The dyadic numbers [m1 * 2 ^ e1] and [m2 * 2 ^ e2] are equal. *)
Definition dyadic_eqb (m1 : positive) (e1 : Z) (m2 : positive) (e2 : Z) : bool :=
  (Zpos m1 * 2 ^ (e1 - Z.min e1 e2) =? Zpos m2 * 2 ^ (e2 - Z.min e1 e2))%Z.

(** [k * x], as the program computes it, is the product of the two numbers:
    a finite value that is the real product, so that nothing has been
    rounded off and nothing has overflowed.  There is nothing to round when
    [x] is a zero, an infinity or [NaN]. *)
Definition exact_product (k x : float) : bool :=
  match Prim2SF k, Prim2SF x with
  | S754_finite _ mk ek, S754_finite _ mx ex =>
      match Prim2SF (k * x) with
      | S754_finite _ m e => dyadic_eqb m e (mk * mx) (ek + ex)
      | _ => false
      end
  | _, _ => true
  end.

(** [x / k], as the program computes it, is the quotient of the two
    numbers: a finite value whose real product with [k] is [x]. *)
Definition exact_quotient (x k : float) : bool :=
  match Prim2SF x, Prim2SF k with
  | S754_finite _ mx ex, S754_finite _ mk ek =>
      match Prim2SF (x / k) with
      | S754_finite _ m e => dyadic_eqb (m * mk) (e + ek) mx ex
      | _ => false
      end
  | _, _ => true
  end.

(** Two terms that add the same to a sum: the same value, or two zeros. *)
Definition same_contribution (x y : float) : Prop :=
  x = y \/ (is_zero x = true /\ is_zero y = true).

(** The real number a finite binary64 value stands for. *)
Definition F2R (x : float) : R :=
  match Prim2SF x with
  | S754_finite s m e => ((if s then -1 else 1) * IZR (Zpos m) * powerRZ 2 e)%R
  | _ => 0%R
  end.

(** [x] is [n] to the nearest unit. *)
Definition rounds_to (x : R) (n : Z) : Prop := (Rabs (x - IZR n) <= 1 / 2)%R.

(** The host's [Math.exp] is accurate to [tol] at [x]: its result is a
    finite number within [tol] of the exponential of [x]. *)
Definition accurate_exp `{Runtime} (tol : R) (x : float) : Prop :=
  is_finite (Math_exp x) = true
  /\ (Rabs (F2R (Math_exp x) - exp (F2R x)) <= tol)%R.

(** The scenario of the specification. *)
Definition scenario_coefs : gmap string float :=
  <["Intercept"%string := 6.0]> (<["age"%string := -0.01]> (<["overall_rating"%string := 0.05]>
  (<["position_group_Midfielder"%string := 0.1]> (<["preferred_foot_Right"%string := 0.02]> ∅)))).

Definition scenario_features : FeatureVector :=
  {| age := 24; rating := 85; pg := "Midfielder"; foot := "Right" |}.

(** ** Definitions the proofs use *)

(** The finite class, read on the [SpecFloat] image of a value. *)
Definition sf_finite (x : spec_float) : bool :=
  match x with
  | S754_zero _ | S754_finite _ _ _ => true
  | S754_infinity _ | S754_nan => false
  end.

(** Truthiness, read on the [SpecFloat] image of a value. *)
Definition sf_truthy (x : spec_float) : bool :=
  match x with
  | S754_zero _ | S754_nan => false
  | S754_infinity _ | S754_finite _ _ _ => true
  end.

(** A finite value with its exponent moved by [j]: the value times
    [2 ^ j], where that is a binary64 value with the same significand. *)
Definition sf_scale (j : Z) (x : spec_float) : spec_float :=
  match x with S754_finite s m e => S754_finite s m (e + j) | _ => x end.

(** The magnitude of a finite value. *)
Definition mag (m : positive) (e : Z) : R := (IZR (Zpos m) * powerRZ 2 e)%R.

(** [x'] is [x] times the finite nonzero value of sign [sk] and magnitude
    [mag mk ek]; [x'] is [x] divided by it. *)
Definition sf_times (sk : bool) (mk : positive) (ek : Z) (x x' : spec_float) : Prop :=
  match x with
  | S754_zero s => x' = S754_zero (xorb sk s)
  | S754_infinity s => x' = S754_infinity (xorb sk s)
  | S754_nan => x' = S754_nan
  | S754_finite s m e =>
      exists m' e', x' = S754_finite (xorb sk s) m' e'
                    /\ mag m' e' = (mag mk ek * mag m e)%R
  end.

Definition sf_over (sk : bool) (mk : positive) (ek : Z) (x x' : spec_float) : Prop :=
  match x with
  | S754_zero s => x' = S754_zero (xorb s sk)
  | S754_infinity s => x' = S754_infinity (xorb s sk)
  | S754_nan => x' = S754_nan
  | S754_finite s m e =>
      exists m' e', x' = S754_finite (xorb s sk) m' e'
                    /\ (mag m' e' * mag mk ek)%R = mag m e
  end.

(** The significand of [USD_PER_EUR]: the rate is [rate_M / 2 ^ 52]. *)
Definition rate_M : positive := 4863887597560136.

(** The position codes of the second and third rules. *)
Definition defender_codes : list string := ["CB"; "LB"; "RB"; "RWB"; "LWB"]%string.
Definition midfielder_codes : list string :=
  ["CM"; "CDM"; "CAM"; "RM"; "LM"; "RW"; "LW"]%string.

(** The rows the filter stage of the histogram receives. *)
Definition before_filter (dataset : list Datum) : list Datum :=
  run_transforms [CalculateGroup calcGroupExpr; CalculateWageUsd wageUsdExpr] dataset.

(** The rows it hands to the aggregate stage. *)
Definition after_filter (posFilter : string) (dataset : list Datum) : list Datum :=
  run_transforms (transform (wageHistSpec posFilter)) dataset.

(** The number of records a histogram series accounts for. *)
Definition total (bins : list (Z * nat)) : nat := list_sum (map snd bins).

(** The significand of [eta] on the scenario: [eta = eta_M / 2 ^ 49]. *)
Definition eta_M : Z := 5702683028157890.

(** An upper bound of [2 ^ 100 / (1 - eta_M / 2 ^ 89)]. *)
Definition upper_start : Z :=
  ((2 ^ 100 * 2 ^ 100 + (2 ^ 100 - eta_M * 2 ^ 11) - 1) / (2 ^ 100 - eta_M * 2 ^ 11))%Z.

(** ** Definitions for further properties of the code *)

(** The four labels of [calcGroupExpr]. *)
Definition group_names : list string :=
  ["Goalkeeper"; "Defender"; "Midfielder"; "Forward"]%string.

(** The place of a label in the order the rules are tried: the earlier the
    rule, the higher. *)
Definition precedence (g : string) : nat :=
  if String.eqb g "Goalkeeper" then 3
  else if String.eqb g "Defender" then 2
  else if String.eqb g "Midfielder" then 1
  else 0.

(** The keys at which the [useMemo] callback reads [coefs]. *)
Definition read_keys (f : FeatureVector) : list string :=
  ["Intercept"; "age"; "overall_rating";
   "position_group_" +:+ pg f; "preferred_foot_" +:+ foot f]%string.

(** A row after the two [calculate] stages. *)
Definition derived (d : Datum) : Datum :=
  {| positions := positions d; wage_euro := wage_euro d;
     group := Some (deriveGroup (positions d));
     wage_usd := Some (USD_PER_EUR * wage_euro d) |}.

(** The row's positions derive to [g]. *)
Definition in_group (g : string) (d : Datum) : bool :=
  String.eqb (deriveGroup (positions d)) g.

(** The estimate of the last record of [arr] whose term is [k]. *)
Fixpoint last_estimate (k : string) (arr : list CoefRecord) : option JS.value :=
  match arr with
  | [] => None
  | d :: arr' =>
      match last_estimate k arr' with
      | Some v => Some v
      | None => if String.eqb (term d) k then Some (estimate d) else None
      end
  end.

(** * Proofs *)

(** ** Facts on binary64 arithmetic *)

Module F64.

Lemma SFcompare_finite_refl s m e :
  SFcompare (S754_finite s m e) (S754_finite s m e) = Some Eq.
Proof.
  destruct s; simpl; rewrite Z.compare_refl, Pos.compare_cont_refl; reflexivity.
Qed.

Lemma SFeqb_refl x : x <> S754_nan -> SFeqb x x = true.
Proof.
  unfold SFeqb. destruct x as [s|s| |s m e]; intros Hx.
  - reflexivity.
  - destruct s; reflexivity.
  - congruence.
  - rewrite SFcompare_finite_refl. reflexivity.
Qed.

Lemma is_nan_SF x : is_nan x = true <-> Prim2SF x = S754_nan.
Proof.
  unfold is_nan. rewrite FloatAxioms.eqb_spec. split.
  - intros H. destruct (Prim2SF x) as [s|s| |s m e] eqn:E; try reflexivity;
      rewrite SFeqb_refl in H by discriminate; discriminate.
  - intros ->. reflexivity.
Qed.

Lemma is_nan_eq x : is_nan x = true <-> x = nan.
Proof.
  rewrite is_nan_SF. split.
  - intros H. apply Prim2SF_inj. rewrite H. reflexivity.
  - intros ->. reflexivity.
Qed.

Lemma is_zero_SF x :
  is_zero x = true <-> exists s, Prim2SF x = S754_zero s.
Proof.
  unfold is_zero. rewrite FloatAxioms.eqb_spec.
  change (Prim2SF PrimFloat.zero) with (S754_zero false). split.
  - destruct (Prim2SF x) as [s|s| |s m e]; try (now eauto);
      unfold SFeqb; simpl; try destruct s; discriminate.
  - intros [s ->]. reflexivity.
Qed.

Lemma is_infinity_SF x :
  is_infinity x = true <-> exists s, Prim2SF x = S754_infinity s.
Proof.
  unfold is_infinity. rewrite FloatAxioms.eqb_spec, abs_spec.
  change (Prim2SF infinity) with (S754_infinity false). split.
  - destruct (Prim2SF x) as [s|s| |s m e]; try (now eauto);
      unfold SFeqb; simpl; discriminate.
  - intros [s ->]. reflexivity.
Qed.

Lemma is_finite_SF x : is_finite x = sf_finite (Prim2SF x).
Proof.
  unfold is_finite.
  destruct (is_nan x) eqn:En.
  - apply is_nan_SF in En. rewrite En. reflexivity.
  - destruct (is_infinity x) eqn:Ei.
    + apply is_infinity_SF in Ei as [s ->]. reflexivity.
    + simpl. destruct (Prim2SF x) as [s|s| |s m e] eqn:E; try reflexivity.
      * assert (is_infinity x = true) by (apply is_infinity_SF; eauto). congruence.
      * assert (is_nan x = true) by (apply is_nan_SF; assumption). congruence.
Qed.

(** A value that is not finite is [NaN], [+Infinity] or [-Infinity]. *)
Lemma not_finite_cases x :
  is_finite x = false <-> x = nan \/ x = infinity \/ x = neg_infinity.
Proof.
  rewrite is_finite_SF. split.
  - intros H. destruct (Prim2SF x) as [s|s| |s m e] eqn:E; try discriminate.
    + right. rewrite <- (SF2Prim_Prim2SF x), E. destruct s; auto.
    + left. rewrite <- (SF2Prim_Prim2SF x), E. reflexivity.
  - intros [-> | [-> | ->]]; reflexivity.
Qed.

(** [0 + x] is [x], except for [x = -0]. *)
Lemma add_zero_l x : x <> neg_zero -> 0 + x = x.
Proof.
  intros Hx. apply Prim2SF_inj. rewrite add_spec.
  change (Prim2SF 0) with (S754_zero false). unfold SF64add.
  destruct (Prim2SF x) as [s|s| |s m e] eqn:E; simpl; try reflexivity.
  destruct s; try reflexivity.
  exfalso. apply Hx. rewrite <- (SF2Prim_Prim2SF x), E. reflexivity.
Qed.

(** [0 * x] is a zero when [x] is finite, and [+0] plus a zero is [+0]. *)
Lemma add_zero_mul_zero x : is_finite x = true -> 0 + 0 * x = 0.
Proof.
  rewrite is_finite_SF. intros Hx. apply Prim2SF_inj.
  rewrite add_spec, mul_spec.
  change (Prim2SF 0) with (S754_zero false). unfold SF64add, SF64mul.
  destruct (Prim2SF x) as [s|s| |s m e]; try discriminate; destruct s; reflexivity.
Qed.

Lemma zero_neq_neg_zero : 0 <> neg_zero.
Proof. intros H. apply (f_equal Prim2SF) in H. discriminate H. Qed.

(** *** Scaling by a power of two *)

Lemma bounded_inv m e :
  SpecFloat.bounded prec emax m e = true ->
  (fexp prec emax (Zpos (digits2_pos m) + e) = e /\ e <= emax - prec)%Z.
Proof.
  unfold SpecFloat.bounded, canonical_mantissa. rewrite andb_true_iff, Z.eqb_eq, Z.leb_le. tauto.
Qed.

(** The last step of [binary_round_aux] on a significand that already fits. *)
Lemma second_stage s m e :
  fexp prec emax (Zpos (digits2_pos m) + e) = e ->
  (e <= emax - prec)%Z ->
  (let '(mrs, e') :=
     shr_fexp prec emax
       (round_nearest_even (shr_m {| shr_m := Zpos m; shr_r := false; shr_s := false |})
          (loc_of_shr_record {| shr_m := Zpos m; shr_r := false; shr_s := false |}))
       e loc_Exact in
   match shr_m mrs with
   | Z0 => S754_zero s
   | Zpos m' => if (e' <=? emax - prec)%Z then S754_finite s m' e' else S754_infinity s
   | Zneg _ => S754_nan
   end) = S754_finite s m e.
Proof.
  intros Hc He.
  cbn [shr_m loc_of_shr_record round_nearest_even]. unfold shr_fexp.
  cbn [Zdigits2 shr_record_of_loc]. rewrite Hc, Z.sub_diag. cbn [shr shr_m].
  apply Z.leb_le in He. rewrite He. reflexivity.
Qed.

Lemma round_exact s m e :
  SpecFloat.bounded prec emax m e = true ->
  binary_round_aux prec emax s (Zpos m) e loc_Exact = S754_finite s m e.
Proof.
  intros Hb. apply bounded_inv in Hb as [Hc He].
  unfold binary_round_aux. unfold shr_fexp at 1. cbn [Zdigits2 shr_record_of_loc].
  rewrite Hc, Z.sub_diag. cbn [shr].
  apply second_stage; assumption.
Qed.

Lemma mul_two52 m : (two52 * m)%positive = Pos.iter xO m 52.
Proof. reflexivity. Qed.

Lemma digits2_iter_xO m n :
  Zpos (digits2_pos (Pos.iter xO m n)) = (Zpos (digits2_pos m) + Zpos n)%Z.
Proof.
  induction n as [|n IH] using Pos.peano_ind.
  - simpl. lia.
  - rewrite Pos.iter_succ. cbn [digits2_pos]. lia.
Qed.

Lemma shr_52 m :
  SpecFloat.iter_pos shr_1 52
    {| shr_m := Zpos (Pos.iter xO m 52); shr_r := false; shr_s := false |}
  = {| shr_m := Zpos m; shr_r := false; shr_s := false |}.
Proof. reflexivity. Qed.

(** Rounding [m * 2^52] at exponent [e] when [m] fits at exponent [e + 52]. *)
Lemma round_mul_two52 s m e :
  SpecFloat.bounded prec emax m (e + 52) = true ->
  binary_round_aux prec emax s (Zpos (two52 * m)) e loc_Exact = S754_finite s m (e + 52).
Proof.
  intros Hb. apply bounded_inv in Hb as [Hc He].
  rewrite mul_two52.
  unfold binary_round_aux. unfold shr_fexp at 1.
  unfold Zdigits2 at 1. rewrite digits2_iter_xO.
  replace (Z.pos (digits2_pos m) + 52 + e)%Z with (Z.pos (digits2_pos m) + (e + 52))%Z by lia.
  rewrite Hc. replace (e + 52 - e)%Z with 52%Z by lia.
  unfold shr_record_of_loc at 1. unfold shr at 1. rewrite shr_52.
  apply second_stage; assumption.
Qed.

Lemma round_double s m e :
  SpecFloat.bounded prec emax m (e + 1) = true ->
  binary_round_aux prec emax s (Zpos (xO m)) e loc_Exact = S754_finite s m (e + 1).
Proof.
  intros Hb. apply bounded_inv in Hb as [Hc He].
  unfold binary_round_aux. unfold shr_fexp at 1.
  unfold Zdigits2 at 1. cbn [digits2_pos].
  replace (Z.pos (Pos.succ (digits2_pos m)) + e)%Z with (Z.pos (digits2_pos m) + (e + 1))%Z by lia.
  rewrite Hc. replace (e + 1 - e)%Z with 1%Z by lia.
  cbn [shr_record_of_loc shr SpecFloat.iter_pos shr_1 orb].
  apply second_stage; assumption.
Qed.

(** Multiplying by a positive power of two. *)
Lemma SFmul_pow2 ek x :
  valid_binary x = true ->
  valid_binary (sf_scale (ek + 52) x) = true ->
  SF64mul (S754_finite false two52 ek) x = sf_scale (ek + 52) x.
Proof.
  intros _ Hx. destruct x as [s|s| |s m e]; try reflexivity.
  unfold SF64mul, SFmul. cbn [xorb sf_scale].
  cbn [sf_scale SpecFloat.valid_binary] in Hx.
  replace (e + (ek + 52))%Z with (ek + e + 52)%Z in * by lia.
  apply round_mul_two52, Hx.
Qed.

Lemma div_eucl_mul a b :
  (0 < b)%Z -> Z.div_eucl (a * b) b = (a, 0%Z).
Proof.
  intros Hb.
  pose proof (Z.div_mul a b ltac:(lia)) as Hq.
  pose proof (Z.mod_mul a b ltac:(lia)) as Hr.
  unfold Z.div, Z.modulo in Hq, Hr.
  destruct (Z.div_eucl (a * b) b) as [q r]. subst. reflexivity.
Qed.

(** Dividing by a positive power of two. *)
Lemma SFdiv_pow2 ek x :
  valid_binary x = true ->
  valid_binary (sf_scale (- (ek + 52)) x) = true ->
  SF64div x (S754_finite false two52 ek) = sf_scale (- (ek + 52)) x.
Proof.
  intros Hv Hx. destruct x as [s|s| |s m e]; try (destruct s; reflexivity); try reflexivity.
  unfold SF64div, SFdiv. cbn [sf_scale SpecFloat.valid_binary] in *.
  rewrite xorb_false_r.
  set (t := (e + - (ek + 52))%Z) in *.
  pose proof Hx as Hx'. apply bounded_inv in Hx' as [Hc He].
  apply bounded_inv in Hv as [Hcv Hev].
  unfold SFdiv_core_binary. cbn [Zdigits2].
  change (Z.pos (digits2_pos two52)) with 53%Z.
  assert (Hcases : (fexp prec emax (Z.pos (digits2_pos m) + e - (53 + ek)) = t
                    \/ (fexp prec emax (Z.pos (digits2_pos m) + e - (53 + ek)) = t - 1
                        /\ fexp prec emax (Z.pos (digits2_pos m) + 1 + (t - 1)) = t))%Z).
  { revert Hc Hcv. unfold fexp, SpecFloat.emin, emax, prec, t. lia. }
  destruct Hcases as [E | [E E']]; rewrite E.
  - rewrite Z.min_l by (unfold t; lia).
    replace (e - ek - t)%Z with 52%Z by (unfold t; lia).
    change (Z.shiftl (Z.pos m) 52) with (Z.pos (two52 * m)).
    rewrite (Pos.mul_comm two52 m), Pos2Z.inj_mul.
    rewrite div_eucl_mul by lia.
    change (new_location (Z.pos two52) 0) with loc_Exact.
    apply round_exact, Hx.
  - rewrite Z.min_l by (unfold t; lia).
    replace (e - ek - (t - 1))%Z with 53%Z by (unfold t; lia).
    change (Z.shiftl (Z.pos m) 53) with (Z.pos (two52 * xO m)).
    rewrite (Pos.mul_comm two52 (xO m)), Pos2Z.inj_mul.
    rewrite div_eucl_mul by lia.
    change (new_location (Z.pos two52) 0) with loc_Exact.
    rewrite round_double by (replace (t - 1 + 1)%Z with t by lia; exact Hx).
    f_equal. lia.
Qed.

(** *** Significands, shifts and rounding *)

(** A significand of [d] binary digits lies between [2 ^ (d - 1)] and
    [2 ^ d], and that decides [d]. *)
Lemma digits2_bounds p :
  (2 ^ (Zpos (digits2_pos p) - 1) <= Zpos p < 2 ^ Zpos (digits2_pos p))%Z.
Proof.
  induction p as [p IH|p IH|]; cbn [digits2_pos].
  - rewrite Pos2Z.inj_succ.
    replace (Z.succ (Z.pos (digits2_pos p)) - 1)%Z with (Z.succ (Z.pos (digits2_pos p) - 1)) by lia.
    rewrite !Z.pow_succ_r by lia. lia.
  - rewrite Pos2Z.inj_succ.
    replace (Z.succ (Z.pos (digits2_pos p)) - 1)%Z with (Z.succ (Z.pos (digits2_pos p) - 1)) by lia.
    rewrite !Z.pow_succ_r by lia. lia.
  - simpl. lia.
Qed.

Lemma digits2_unique p d :
  (2 ^ (d - 1) <= Zpos p < 2 ^ d)%Z -> Zpos (digits2_pos p) = d.
Proof.
  intros [Hl Hu]. pose proof (digits2_bounds p) as [Hl' Hu'].
  assert (Hd : (0 < d)%Z).
  { destruct (Z.ltb_spec 0 d) as [|Hd]; [assumption|].
    exfalso. destruct (Z.eqb_spec d 0) as [->|].
    - simpl in Hu. lia.
    - rewrite (Z.pow_neg_r 2 d) in Hu by lia. lia. }
  assert (H1 : (d - 1 < Zpos (digits2_pos p))%Z).
  { apply (Z.pow_lt_mono_r_iff 2); lia. }
  assert (H2 : (Zpos (digits2_pos p) - 1 < d)%Z).
  { apply (Z.pow_lt_mono_r_iff 2); lia. }
  lia.
Qed.

(** Shifting right by [n] leaves the quotient by [2 ^ n]. *)
Lemma shr_1_m mrs : (0 <= shr_m mrs)%Z -> shr_m (shr_1 mrs) = (shr_m mrs / 2)%Z.
Proof.
  destruct mrs as [m r s]. cbn [shr_m]. intros Hm.
  rewrite <- Z.div2_div. destruct m as [|[p|p|]|p]; try reflexivity. lia.
Qed.

Lemma shr_m_iter n : forall mrs,
  (0 <= shr_m mrs)%Z ->
  shr_m (SpecFloat.iter_pos shr_1 n mrs) = (shr_m mrs / 2 ^ Zpos n)%Z.
Proof.
  induction n as [n IH|n IH|]; intros mrs Hm; cbn [SpecFloat.iter_pos].
  - assert (H1 : (0 <= shr_m (shr_1 mrs))%Z).
    { rewrite shr_1_m by assumption. apply Z.div_pos; lia. }
    assert (H2 : (0 <= shr_m (SpecFloat.iter_pos shr_1 n (shr_1 mrs)))%Z).
    { rewrite IH by assumption. apply Z.div_pos; [assumption|]. apply Z.pow_pos_nonneg; lia. }
    rewrite IH, IH, shr_1_m by assumption.
    rewrite !Z.div_div by (try apply Z.pow_pos_nonneg; lia).
    f_equal. replace (Z.pos n~1) with (1 + Z.pos n + Z.pos n)%Z by lia.
    rewrite !Z.pow_add_r by lia. lia.
  - assert (H2 : (0 <= shr_m (SpecFloat.iter_pos shr_1 n mrs))%Z).
    { rewrite IH by assumption. apply Z.div_pos; [assumption|]. apply Z.pow_pos_nonneg; lia. }
    rewrite IH, IH by assumption.
    rewrite !Z.div_div by (try apply Z.pow_pos_nonneg; lia).
    f_equal. replace (Z.pos n~0) with (Z.pos n + Z.pos n)%Z by lia.
    rewrite !Z.pow_add_r by lia. lia.
  - apply shr_1_m, Hm.
Qed.

(** Rounding adds at most one unit to the truncated significand. *)
Lemma round_nearest_even_range m l :
  (m <= round_nearest_even m l <= m + 1)%Z.
Proof.
  destruct l as [|[| |]]; cbn [round_nearest_even]; try lia.
  destruct (Z.even m); lia.
Qed.

(** [iter_pos] is iteration over its number of steps. *)
Lemma iter_pos_nat {A} (f : A -> A) (p : positive) : forall x,
  SpecFloat.iter_pos f p x = Nat.iter (Pos.to_nat p) f x.
Proof.
  induction p as [p IH|p IH|]; intros x; cbn [SpecFloat.iter_pos].
  - rewrite !IH, Pos2Nat.inj_xI. rewrite <- Nat.iter_add.
    replace (2 * Pos.to_nat p)%nat with (Pos.to_nat p + Pos.to_nat p)%nat by lia.
    rewrite <- Nat.iter_succ_r. reflexivity.
  - rewrite !IH, Pos2Nat.inj_xO. rewrite <- Nat.iter_add.
    f_equal. lia.
  - reflexivity.
Qed.

(** Shifting out the zeros that a multiplication by [2 ^ j] brought in. *)
Lemma shr_exact (j : nat) : forall M : Z,
  (0 <= M)%Z ->
  Nat.iter j shr_1 {| shr_m := M * 2 ^ Z.of_nat j; shr_r := false; shr_s := false |}
  = {| shr_m := M; shr_r := false; shr_s := false |}.
Proof.
  induction j as [|j IH]; intros M HM.
  - simpl. rewrite Z.mul_1_r. reflexivity.
  - rewrite Nat.iter_succ.
    replace (M * 2 ^ Z.of_nat (S j))%Z with ((2 * M) * 2 ^ Z.of_nat j)%Z.
    2:{ rewrite Nat2Z.inj_succ, Z.pow_succ_r by lia. lia. }
    rewrite IH by lia. destruct M as [|p|p]; reflexivity.
Qed.

Lemma shr_exact_Z (i M : Z) :
  (0 <= i)%Z -> (0 <= M)%Z ->
  Nat.iter (Z.to_nat i) shr_1 {| shr_m := M * 2 ^ i; shr_r := false; shr_s := false |}
  = {| shr_m := M; shr_r := false; shr_s := false |}.
Proof.
  intros Hi HM. pose proof (shr_exact (Z.to_nat i) M HM) as H.
  rewrite Z2Nat.id in H by assumption. exact H.
Qed.

Lemma digits2_shift (M M' : positive) (i : Z) :
  (0 <= i)%Z -> Zpos M' = (Zpos M * 2 ^ i)%Z ->
  Zpos (digits2_pos M') = (Zpos (digits2_pos M) + i)%Z.
Proof.
  intros Hi E. pose proof (digits2_bounds M) as [Hl Hu].
  pose proof (Z.pow_pos_nonneg 2 i ltac:(lia) Hi) as Hp.
  apply digits2_unique. rewrite E.
  replace (Z.pos (digits2_pos M) + i - 1)%Z with (Z.pos (digits2_pos M) - 1 + i)%Z by lia.
  rewrite !Z.pow_add_r by lia. nia.
Qed.

(** Rounding sees the number, not the way it is written: [M * 2 ^ i] at
    exponent [E - i] rounds as [M] at exponent [E], when [M] is not to be
    extended at [E]. *)
Lemma round_aux_shift s (M M' : positive) (E E' : Z) :
  (E' <= E)%Z ->
  Zpos M' = (Zpos M * 2 ^ (E - E'))%Z ->
  (E <= fexp prec emax (Zpos (digits2_pos M) + E))%Z ->
  binary_round_aux prec emax s (Zpos M') E' loc_Exact
  = binary_round_aux prec emax s (Zpos M) E loc_Exact.
Proof.
  intros HE HM Hs.
  assert (Hsh : shr_fexp prec emax (Zpos M') E' loc_Exact
                = shr_fexp prec emax (Zpos M) E loc_Exact).
  { unfold shr_fexp. cbn [Zdigits2 shr_record_of_loc].
    rewrite (digits2_shift M M' (E - E') ltac:(lia) HM).
    replace (Z.pos (digits2_pos M) + (E - E') + E')%Z with (Z.pos (digits2_pos M) + E)%Z by lia.
    set (t := fexp prec emax (Z.pos (digits2_pos M) + E)) in *.
    destruct (Z.eq_dec E' E) as [->|Hne].
    { rewrite Z.sub_diag, Z.pow_0_r, Z.mul_1_r in HM. injection HM as ->. reflexivity. }
    assert (Hi : (0 < E - E')%Z) by lia.
    destruct (t - E')%Z as [|p'|p'] eqn:Ep'; try lia.
    unfold shr at 1. rewrite iter_pos_nat.
    rewrite HM.
    destruct (t - E)%Z as [|p|p] eqn:Ep; try lia.
    - unfold shr. f_equal; [|lia].
      replace (Pos.to_nat p') with (Z.to_nat (E - E')) by lia.
      apply shr_exact_Z; lia.
    - unfold shr. rewrite iter_pos_nat. f_equal; [|lia].
      replace (Pos.to_nat p') with (Pos.to_nat p + Z.to_nat (E - E'))%nat by lia.
      rewrite Nat.iter_add. f_equal.
      apply shr_exact_Z; lia. }
  unfold binary_round_aux. rewrite Hsh. reflexivity.
Qed.

(** The product of the significands of two binary64 values is never to be
    extended at the sum of their exponents. *)
Lemma product_not_extended m1 e1 m2 e2 :
  SpecFloat.bounded prec emax m1 e1 = true ->
  SpecFloat.bounded prec emax m2 e2 = true ->
  (e1 + e2 <= fexp prec emax (Zpos (digits2_pos (m1 * m2)) + (e1 + e2)))%Z.
Proof.
  intros H1 H2. apply bounded_inv in H1 as [C1 _], H2 as [C2 _].
  pose proof (digits2_bounds m1) as [L1 U1].
  pose proof (digits2_bounds m2) as [L2 U2].
  pose proof (digits2_bounds (m1 * m2)) as [L U].
  set (d1 := Zpos (digits2_pos m1)) in *. set (d2 := Zpos (digits2_pos m2)) in *.
  set (d := Zpos (digits2_pos (m1 * m2))) in *.
  assert (Hd1 : (1 <= d1)%Z) by (unfold d1; lia).
  assert (Hd2 : (1 <= d2)%Z) by (unfold d2; lia).
  assert (Hd : (d1 + d2 - 2 < d)%Z).
  { apply (Z.pow_lt_mono_r_iff 2); [lia|unfold d; lia|].
    eapply Z.le_lt_trans; [|exact U].
    replace (d1 + d2 - 2)%Z with ((d1 - 1) + (d2 - 1))%Z by lia.
    rewrite Z.pow_add_r, Pos2Z.inj_mul by lia.
    apply Z.mul_le_mono_nonneg; try assumption; apply Z.pow_nonneg; lia. }
  revert C1 C2. unfold fexp, SpecFloat.emin, emax, prec. lia.
Qed.

(** Rounding keeps the sign. *)
Lemma round_aux_sign s mz e l s' m' e' :
  binary_round_aux prec emax s mz e l = S754_finite s' m' e' -> s' = s.
Proof.
  unfold binary_round_aux.
  destruct (shr_fexp prec emax mz e l) as [mrs e1].
  destruct (shr_fexp prec emax _ e1 loc_Exact) as [mrs2 e2].
  destruct (shr_m mrs2); try discriminate.
  destruct (e2 <=? emax - prec)%Z; [|discriminate].
  intros H. injection H as <- _ _. reflexivity.
Qed.

End F64.

(** ** Binary64 values as real numbers *)

Lemma IZR_pow2 n : (0 <= n)%Z -> IZR (2 ^ n) = powerRZ 2 n.
Proof.
  intros Hn. rewrite <- (Z2Nat.id n Hn) at 1.
  change 2%Z with (Z.of_nat 2) at 1. rewrite <- pow_IZR, pow_powerRZ, Z2Nat.id by assumption.
  reflexivity.
Qed.

Lemma powerRZ_le_mono a b : (a <= b)%Z -> (powerRZ 2 a <= powerRZ 2 b)%R.
Proof.
  intros Hab.
  assert (E : powerRZ 2 b = (powerRZ 2 a * powerRZ 2 (b - a))%R).
  { rewrite <- powerRZ_add by lra. f_equal. lia. }
  rewrite E. assert (Ha : (0 < powerRZ 2 a)%R) by (apply powerRZ_lt; lra).
  rewrite <- (IZR_pow2 (b - a)) by lia.
  assert (H1 : (1 <= IZR (2 ^ (b - a)))%R).
  { apply IZR_le. pose proof (Z.pow_pos_nonneg 2 (b - a) ltac:(lia) ltac:(lia)). lia. }
  nra.
Qed.

Lemma powerRZ_lt_inv a b : (powerRZ 2 a < powerRZ 2 b)%R -> (a < b)%Z.
Proof.
  intros H. destruct (Z.ltb_spec a b) as [|Hba]; [assumption|].
  exfalso. pose proof (powerRZ_le_mono b a Hba). lra.
Qed.

Lemma Rabs_bound x t : (Rabs x <= t -> - t <= x <= t)%R.
Proof.
  intros H. pose proof (Rle_abs x). pose proof (Rle_abs (- x)) as H'.
  rewrite Rabs_Ropp in H'. lra.
Qed.

Lemma mag_pos m e : (0 < mag m e)%R.
Proof.
  unfold mag. apply Rmult_lt_0_compat; [apply IZR_lt; lia | apply powerRZ_lt; lra].
Qed.

Lemma mag_mul m1 e1 m2 e2 : mag (m1 * m2) (e1 + e2) = (mag m1 e1 * mag m2 e2)%R.
Proof.
  unfold mag. rewrite Pos2Z.inj_mul, mult_IZR, powerRZ_add by lra. ring.
Qed.

Lemma mag_shift m e i : (0 <= i)%Z -> (IZR (Zpos m * 2 ^ i) * powerRZ 2 (e - i))%R = mag m e.
Proof.
  intros Hi. unfold mag. rewrite mult_IZR, IZR_pow2 by assumption.
  rewrite Rmult_assoc, <- powerRZ_add by lra. do 2 f_equal. lia.
Qed.

Lemma dyadic_eqb_mag m1 e1 m2 e2 :
  dyadic_eqb m1 e1 m2 e2 = true -> mag m1 e1 = mag m2 e2.
Proof.
  unfold dyadic_eqb. intros H. apply Z.eqb_eq in H.
  rewrite <- (mag_shift m1 e1 (e1 - Z.min e1 e2)) by lia.
  rewrite <- (mag_shift m2 e2 (e2 - Z.min e1 e2)) by lia.
  rewrite H. do 2 f_equal. lia.
Qed.

Lemma mag_eq_shift M E M' E' :
  (E' <= E)%Z -> mag M' E' = mag M E -> Zpos M' = (Zpos M * 2 ^ (E - E'))%Z.
Proof.
  intros HE H. apply eq_IZR.
  rewrite <- (mag_shift M E (E - E')) in H by lia.
  replace (E - (E - E'))%Z with E' in H by lia. unfold mag in H.
  assert (HP : (0 < powerRZ 2 E')%R) by (apply powerRZ_lt; lra).
  apply Rmult_eq_reg_r with (powerRZ 2 E'); [exact H | lra].
Qed.

(** Two products of binary64 values that are the same number round to the
    same value. *)
Lemma round_same_product s m1 e1 m2 e2 m3 e3 m4 e4 :
  SpecFloat.bounded prec emax m1 e1 = true -> SpecFloat.bounded prec emax m2 e2 = true ->
  SpecFloat.bounded prec emax m3 e3 = true -> SpecFloat.bounded prec emax m4 e4 = true ->
  (mag m1 e1 * mag m2 e2)%R = (mag m3 e3 * mag m4 e4)%R ->
  binary_round_aux prec emax s (Zpos (m1 * m2)) (e1 + e2) loc_Exact
  = binary_round_aux prec emax s (Zpos (m3 * m4)) (e3 + e4) loc_Exact.
Proof.
  intros B1 B2 B3 B4 H. rewrite <- !mag_mul in H.
  destruct (Z.le_ge_cases (e1 + e2) (e3 + e4)) as [Hle|Hle].
  - apply F64.round_aux_shift; [exact Hle | apply mag_eq_shift; assumption |].
    apply F64.product_not_extended; assumption.
  - symmetry. apply F64.round_aux_shift; [exact Hle | apply mag_eq_shift; [assumption|symmetry; assumption] |].
    apply F64.product_not_extended; assumption.
Qed.

Lemma finite_nonzero_SF k :
  is_finite k = true -> is_zero k = false ->
  exists sk mk ek, Prim2SF k = S754_finite sk mk ek.
Proof.
  rewrite F64.is_finite_SF. intros Hf Hz.
  destruct (Prim2SF k) as [s|s| |s m e] eqn:E; try discriminate; [|eauto].
  assert (is_zero k = true) by (apply F64.is_zero_SF; eauto). congruence.
Qed.

Lemma mul_exact_SF k x sk mk ek :
  Prim2SF k = S754_finite sk mk ek ->
  exact_product k x = true ->
  sf_times sk mk ek (Prim2SF x) (Prim2SF (k * x)).
Proof.
  intros Hk. unfold exact_product. rewrite Hk.
  pose proof (mul_spec k x) as Hm. rewrite Hk in Hm. unfold SF64mul, SFmul in Hm.
  destruct (Prim2SF x) as [s|s| |s m e]; cbn [sf_times]; try (intros _; exact Hm).
  destruct (Prim2SF (k * x)) as [s'|s'| |s' m' e']; try discriminate.
  intros H. apply dyadic_eqb_mag in H. symmetry in Hm. apply F64.round_aux_sign in Hm as ->.
  exists m', e'. split; [reflexivity|]. rewrite H. apply mag_mul.
Qed.

Lemma div_exact_SF x k sk mk ek :
  Prim2SF k = S754_finite sk mk ek ->
  exact_quotient x k = true ->
  sf_over sk mk ek (Prim2SF x) (Prim2SF (x / k)).
Proof.
  intros Hk. unfold exact_quotient. rewrite Hk.
  pose proof (div_spec x k) as Hm. rewrite Hk in Hm. unfold SF64div, SFdiv in Hm.
  destruct (Prim2SF x) as [s|s| |s m e]; cbn [sf_over]; try (intros _; exact Hm).
  destruct (Prim2SF (x / k)) as [s'|s'| |s' m' e']; try discriminate.
  intros H. apply dyadic_eqb_mag in H. symmetry in Hm.
  destruct (SFdiv_core_binary prec emax (Z.pos m) e (Z.pos mk) ek) as [[mz ez] lz].
  apply F64.round_aux_sign in Hm as ->.
  exists m', e'. split; [reflexivity|]. rewrite <- H. symmetry. apply mag_mul.
Qed.

Lemma mag_dyadic_eqb m1 e1 m2 e2 :
  mag m1 e1 = mag m2 e2 -> dyadic_eqb m1 e1 m2 e2 = true.
Proof.
  intros H. unfold dyadic_eqb. apply Z.eqb_eq, eq_IZR.
  rewrite <- (mag_shift m1 e1 (e1 - Z.min e1 e2)) in H by lia.
  rewrite <- (mag_shift m2 e2 (e2 - Z.min e1 e2)) in H by lia.
  replace (e1 - (e1 - Z.min e1 e2))%Z with (Z.min e1 e2) in H by lia.
  replace (e2 - (e2 - Z.min e1 e2))%Z with (Z.min e1 e2) in H by lia.
  assert (HP : (0 < powerRZ 2 (Z.min e1 e2))%R) by (apply powerRZ_lt; lra).
  apply Rmult_eq_reg_r with (powerRZ 2 (Z.min e1 e2)); [exact H | lra].
Qed.

Lemma F2R_finite x s m e :
  Prim2SF x = S754_finite s m e -> F2R x = ((if s then -1 else 1) * mag m e)%R.
Proof. intros H. unfold F2R, mag. rewrite H. ring. Qed.

Lemma F2R_zero x s : Prim2SF x = S754_zero s -> F2R x = 0%R.
Proof. intros H. unfold F2R. rewrite H. reflexivity. Qed.

(** What the two conditions of exactness say, in real numbers. *)
Lemma exact_product_spec k x :
  is_finite k = true -> is_zero k = false -> is_finite x = true ->
  exact_product k x = true
  <-> is_finite (k * x) = true /\ F2R (k * x) = (F2R k * F2R x)%R.
Proof.
  intros Hf Hz Hx. destruct (finite_nonzero_SF k Hf Hz) as (sk & mk & ek & Hk).
  unfold exact_product. rewrite Hk, (F2R_finite k _ _ _ Hk).
  pose proof (mul_spec k x) as Hm. rewrite Hk in Hm. unfold SF64mul, SFmul in Hm.
  rewrite F64.is_finite_SF in Hx. rewrite F64.is_finite_SF.
  pose proof (mag_pos mk ek) as Pk.
  destruct (Prim2SF x) as [s|s| |s m e] eqn:Ex; try discriminate.
  - rewrite (F2R_zero x s Ex), (F2R_zero (k * x) _ Hm), Hm. split; [|reflexivity].
    intros _. split; [reflexivity | ring].
  - rewrite (F2R_finite x _ _ _ Ex). pose proof (mag_pos m e) as Px.
    destruct (Prim2SF (k * x)) as [s'|s'| |s' m' e'] eqn:Ep.
    + rewrite (F2R_zero (k * x) s' Ep). split; [discriminate|].
      intros [_ H]. exfalso. destruct sk, s; nra.
    + split; [discriminate | intros [H _]; discriminate H].
    + split; [discriminate | intros [H _]; discriminate H].
    + rewrite (F2R_finite (k * x) _ _ _ Ep). pose proof (mag_pos m' e') as Pp.
      symmetry in Hm. apply F64.round_aux_sign in Hm as ->.
      split.
      * intros H. apply dyadic_eqb_mag in H. rewrite mag_mul in H.
        split; [reflexivity|]. rewrite H. destruct sk, s; simpl; ring.
      * intros [_ H]. apply mag_dyadic_eqb. rewrite mag_mul.
        destruct sk, s; simpl in H; nra.
Qed.

Lemma exact_quotient_spec x k :
  is_finite k = true -> is_zero k = false -> is_finite x = true ->
  exact_quotient x k = true
  <-> is_finite (x / k) = true /\ (F2R (x / k) * F2R k)%R = F2R x.
Proof.
  intros Hf Hz Hx. destruct (finite_nonzero_SF k Hf Hz) as (sk & mk & ek & Hk).
  unfold exact_quotient. rewrite Hk, (F2R_finite k _ _ _ Hk).
  pose proof (div_spec x k) as Hm. rewrite Hk in Hm. unfold SF64div, SFdiv in Hm.
  rewrite F64.is_finite_SF in Hx. rewrite F64.is_finite_SF.
  pose proof (mag_pos mk ek) as Pk.
  destruct (Prim2SF x) as [s|s| |s m e] eqn:Ex; try discriminate.
  - rewrite (F2R_zero x s Ex), (F2R_zero (x / k) _ Hm), Hm. split; [|reflexivity].
    intros _. split; [reflexivity | ring].
  - rewrite (F2R_finite x _ _ _ Ex). pose proof (mag_pos m e) as Px.
    destruct (SFdiv_core_binary prec emax (Z.pos m) e (Z.pos mk) ek) as [[mz ez] lz].
    destruct (Prim2SF (x / k)) as [s'|s'| |s' m' e'] eqn:Ep.
    + rewrite (F2R_zero (x / k) s' Ep). split; [discriminate|].
      intros [_ H]. exfalso. destruct sk, s; nra.
    + split; [discriminate | intros [H _]; discriminate H].
    + split; [discriminate | intros [H _]; discriminate H].
    + rewrite (F2R_finite (x / k) _ _ _ Ep). pose proof (mag_pos m' e') as Pp.
      symmetry in Hm. apply F64.round_aux_sign in Hm as ->.
      split.
      * intros H. apply dyadic_eqb_mag in H. rewrite mag_mul in H.
        split; [reflexivity|]. rewrite <- H. destruct sk, s; simpl; ring.
      * intros [_ H]. apply mag_dyadic_eqb. rewrite mag_mul.
        destruct sk, s; simpl in H; nra.
Qed.

(** [v || 0] is never [-0], so adding it to [+0] returns it. *)
Lemma or_zero_not_neg_zero v : or_zero v <> neg_zero.
Proof.
  destruct v as [x|]; simpl; [|apply F64.zero_neq_neg_zero].
  unfold ToBoolean. destruct (is_zero x) eqn:Ez; simpl.
  - apply F64.zero_neq_neg_zero.
  - destruct (is_nan x); simpl; [apply F64.zero_neq_neg_zero|].
    intros ->. discriminate Ez.
Qed.

Lemma add_zero_or_zero v : 0 + or_zero v = or_zero v.
Proof. apply F64.add_zero_l, or_zero_not_neg_zero. Qed.

(** ** The predictor *)

Lemma eta_closed_form coefs f :
  eta coefs f =
  coef coefs "Intercept" + coef coefs "age" * age f
  + coef coefs "overall_rating" * rating f
  + coef coefs ("position_group_" +:+ pg f)
  + coef coefs ("preferred_foot_" +:+ foot f).
Proof. unfold eta, coef. rewrite add_zero_or_zero. reflexivity. Qed.

Lemma coef_absent coefs k : coefs !! k = None -> coef coefs k = 0.
Proof. unfold coef. intros ->. reflexivity. Qed.

Lemma coef_nan coefs k : coefs !! k = Some nan -> coef coefs k = 0.
Proof. unfold coef. intros ->. reflexivity. Qed.

Lemma coef_truthy coefs k x :
  coefs !! k = Some x -> ToBoolean x = true -> coef coefs k = x.
Proof. unfold coef. intros -> Hx. simpl. rewrite Hx. reflexivity. Qed.

Lemma coef_falsy coefs k x :
  coefs !! k = Some x -> ToBoolean x = false -> coef coefs k = 0.
Proof. unfold coef. intros -> Hx. simpl. rewrite Hx. reflexivity. Qed.

(** A stored estimate that is neither [NaN] nor [-0] is read as itself. *)
Lemma coef_stored coefs k :
  (forall x, coefs !! k = Some x -> is_nan x = false /\ x <> neg_zero) ->
  coef coefs k = coef_or_absent coefs k.
Proof.
  unfold coef, coef_or_absent. destruct (coefs !! k) as [x|]; [|reflexivity].
  intros Hx. destruct (Hx x eq_refl) as [Hnan Hneg]. simpl. unfold ToBoolean.
  rewrite Hnan, orb_false_r. destruct (is_zero x) eqn:Ez; [|reflexivity]. simpl.
  apply F64.is_zero_SF in Ez as [s Hs]. destruct s.
  - exfalso. apply Hneg. rewrite <- (SF2Prim_Prim2SF x), Hs. reflexivity.
  - rewrite <- (SF2Prim_Prim2SF x), Hs. reflexivity.
Qed.

(** C1, as stated, fails on a map that stores [NaN]: with
    [coefs = {Intercept: NaN}] the program's [eta] is [0] and the prediction
    is a number, where the stated formula gives [NaN]. *)
Lemma predict_as_stated_fails_on_nan :
  let coefs : gmap string float := {["Intercept"%string := nan]} in
  eta coefs scenario_features = 0
  /\ eta_as_stated coefs scenario_features = nan
  /\ predict (H := Ref.runtime) true 1.08 coefs scenario_features = 1.08
  /\ predict_as_stated (H := Ref.runtime) true 1.08 coefs scenario_features = nan
  /\ predict (H := Ref.runtime) false 1.08 coefs scenario_features
     <> predict_as_stated (H := Ref.runtime) false 1.08 coefs scenario_features.
Proof.
  repeat split; try (vm_compute; reflexivity).
  intros H. apply (f_equal is_nan) in H. vm_compute in H. discriminate H.
Qed.

(** C1 (amended): for every coefficient map, feature vector and
    configuration, [predict] returns [(if targetIsLog then exp eta else eta)
    * currencyRate], where [eta] is the sum of the five terms read through
    [coefs[k] || 0]: a term that is absent from the map contributes 0, and
    so does a term whose stored estimate is [NaN]; a stored estimate that
    is neither [NaN] nor a zero contributes itself.  On a map that stores
    neither [NaN] nor [-0] this is the formula over the stored estimates. *)
Theorem predict_closed_form `{Runtime} (targetIsLog : bool) (currencyRate : float)
    (coefs : gmap string float) (f : FeatureVector) :
  let eta' :=
    coef coefs "Intercept" + coef coefs "age" * age f
    + coef coefs "overall_rating" * rating f
    + coef coefs ("position_group_" +:+ pg f)
    + coef coefs ("preferred_foot_" +:+ foot f) in
  predict targetIsLog currencyRate coefs f
  = (if targetIsLog then Math_exp eta' else eta') * currencyRate
  /\ (forall k, coefs !! k = None -> coef coefs k = 0)
  /\ (forall k, coefs !! k = Some nan -> coef coefs k = 0)
  /\ (forall k x, coefs !! k = Some x -> ToBoolean x = true -> coef coefs k = x)
  /\ ((forall k x, coefs !! k = Some x -> is_nan x = false /\ x <> neg_zero) ->
      predict targetIsLog currencyRate coefs f
      = predict_as_stated targetIsLog currencyRate coefs f).
Proof.
  cbv zeta. split; [|split; [|split; [|split]]].
  - unfold predict. rewrite eta_closed_form. reflexivity.
  - apply coef_absent.
  - apply coef_nan.
  - apply coef_truthy.
  - intros Hstored. unfold predict, predict_as_stated, eta_as_stated.
    rewrite eta_closed_form, !(coef_stored coefs) by (intros x; apply Hstored).
    reflexivity.
Qed.

(** C5: with no coefficient loaded the prediction does not depend on the
    features: it is [exp(0) * currencyRate] under the log link and
    [0 * currencyRate] otherwise, for every feature vector whose age and
    rating are finite numbers. *)
Theorem predict_empty_map `{Runtime} (targetIsLog : bool) (currencyRate : float)
    (f : FeatureVector) :
  is_finite (age f) = true ->
  is_finite (rating f) = true ->
  predict targetIsLog currencyRate ∅ f
  = (if targetIsLog then Math_exp 0 else 0) * currencyRate.
Proof.
  intros Ha Hr.
  assert (E : eta ∅ f = 0).
  { unfold eta. rewrite !lookup_empty. simpl or_zero.
    change (0 + 0) with 0.
    rewrite (F64.add_zero_mul_zero _ Ha), (F64.add_zero_mul_zero _ Hr).
    reflexivity. }
  unfold predict. rewrite E. reflexivity.
Qed.

(** The scenario's features on the empty map. *)
Lemma predict_empty_map_witness :
  predict (H := Ref.runtime) true 1.08 ∅ scenario_features
  = Math_exp (Runtime := Ref.runtime) 0 * 1.08.
Proof.
  apply (predict_empty_map (H := Ref.runtime) true 1.08 scenario_features);
    reflexivity.
Defined.

(** Finiteness of the features is what the feature vectors of the
    specification (integer age and rating) provide; on a state whose age
    text is not a number, [0 * NaN] makes [eta] a [NaN]. *)
Lemma predict_empty_map_needs_numbers :
  let st := {| posFilter := "All"; age_state := VStr "abc"; rating_state := VNum 85;
               foot_state := "Right"; pg_state := "Midfielder" |} in
  age (features (H := Ref.runtime) st) = nan
  /\ predictedUSD (H := Ref.runtime) ∅ st = nan
  /\ fmtUSD (H := Ref.runtime) (predictedUSD (H := Ref.runtime) ∅ st) = "—"%string.
Proof. repeat split. Qed.

(** ** The display formatter *)

(** C8: on a prediction that is not finite ([NaN], [+Infinity] or
    [-Infinity]) the formatter returns the marker ["—"]; on a finite one it
    returns the host's currency text; and the predictor yields a value on
    every coefficient map and state, which the formatter turns into one of
    the two. *)
Theorem fmtUSD_marks_non_finite `{Runtime} :
  (forall x, x = nan \/ x = infinity \/ x = neg_infinity -> fmtUSD x = "—"%string)
  /\ (forall x, is_finite x = true -> fmtUSD x = toLocaleString x)
  /\ (forall coefs st, exists v,
        predictedUSD coefs st = v
        /\ (fmtUSD v = "—"%string \/ fmtUSD v = toLocaleString v)).
Proof.
  split; [|split].
  - intros x Hx. apply F64.not_finite_cases in Hx.
    unfold fmtUSD, JS.isFinite. rewrite Hx. reflexivity.
  - intros x Hx. unfold fmtUSD, JS.isFinite. rewrite Hx. reflexivity.
  - intros coefs st. exists (predictedUSD coefs st). split; [reflexivity|].
    unfold fmtUSD, JS.isFinite.
    destruct (is_finite (predictedUSD coefs st)); [right|left]; reflexivity.
Qed.

(** ** The category deriver *)

Lemma prefix_app sub s :
  String.prefix sub s = true <-> exists post, s = (sub +:+ post)%string.
Proof.
  revert s. induction sub as [|c sub IH]; intros s; destruct s as [|c' s]; simpl.
  - split; [intros _; exists ""%string; reflexivity | reflexivity].
  - split; [intros _; exists (String c' s); reflexivity | reflexivity].
  - split; [discriminate | intros [post Hp]; discriminate Hp].
  - destruct (Ascii.ascii_dec c c') as [->|Hne].
    + rewrite IH. split; intros [post Hp]; exists post; [rewrite Hp; reflexivity|].
      injection Hp as Hp. exact Hp.
    + split; [discriminate | intros [post Hp]; injection Hp as Hc _; congruence].
Qed.

Lemma indexof_from_contains s sub i :
  (0 <= i)%Z -> (0 <= indexof_from i s sub)%Z <-> contains s sub.
Proof.
  revert i. induction s as [|c s IH]; intros i Hi; cbn [indexof_from].
  - destruct (String.prefix sub "") eqn:Ep.
    + split; [intros _|lia]. apply prefix_app in Ep as [post Hp].
      exists ""%string, post. exact Hp.
    + split; [lia|]. intros (pre & post & Hs). exfalso.
      assert (String.prefix sub "" = true); [|congruence].
      apply prefix_app. exists post.
      destruct pre; [exact Hs | discriminate Hs].
  - destruct (String.prefix sub (String c s)) eqn:Ep.
    + split; [intros _|lia]. apply prefix_app in Ep as [post Hp].
      exists ""%string, post. exact Hp.
    + rewrite IH by lia. split.
      * intros (pre & post & Hs). exists (String c pre), post. rewrite Hs. reflexivity.
      * intros (pre & post & Hs). destruct pre as [|c' pre].
        -- exfalso. assert (String.prefix sub (String c s) = true); [|congruence].
           apply prefix_app. exists post. exact Hs.
        -- injection Hs as _ Hs. exists pre, post. exact Hs.
Qed.

Lemma indexof_contains s sub :
  (indexof s sub >=? 0)%Z = true <-> contains s sub.
Proof.
  unfold indexof. rewrite <- (indexof_from_contains s sub 0) by lia.
  rewrite Z.geb_leb, Z.leb_le. reflexivity.
Qed.

Lemma indexof_not_contains s sub :
  (indexof s sub >=? 0)%Z = false <-> ~ contains s sub.
Proof.
  rewrite <- indexof_contains. destruct (indexof s sub >=? 0)%Z; split; congruence.
Qed.

Lemma defender_rule s :
  ((indexof s "CB" >=? 0) || (indexof s "LB" >=? 0) || (indexof s "RB" >=? 0)
   || (indexof s "RWB" >=? 0) || (indexof s "LWB" >=? 0))%Z = true
  <-> Exists (contains s) defender_codes.
Proof.
  unfold defender_codes. rewrite !Exists_cons, Exists_nil, !orb_true_iff.
  rewrite !indexof_contains. tauto.
Qed.

Lemma midfielder_rule s :
  ((indexof s "CM" >=? 0) || (indexof s "CDM" >=? 0) || (indexof s "CAM" >=? 0)
   || (indexof s "RM" >=? 0) || (indexof s "LM" >=? 0) || (indexof s "RW" >=? 0)
   || (indexof s "LW" >=? 0))%Z = true
  <-> Exists (contains s) midfielder_codes.
Proof.
  unfold midfielder_codes. rewrite !Exists_cons, Exists_nil, !orb_true_iff.
  rewrite !indexof_contains. tauto.
Qed.

(** C2: the group of a positions text is decided by the first rule that
    matches: Goalkeeper when the text contains ["GK"]; otherwise Defender
    when it contains one of CB, LB, RB, RWB, LWB; otherwise Midfielder when
    it contains one of CM, CDM, CAM, RM, LM, RW, LW; otherwise Forward.  The
    four examples of the specification follow. *)
Theorem deriveGroup_first_match (s : string) :
  (contains s "GK" -> deriveGroup s = "Goalkeeper"%string)
  /\ (~ contains s "GK" -> Exists (contains s) defender_codes ->
      deriveGroup s = "Defender"%string)
  /\ (~ contains s "GK" -> ~ Exists (contains s) defender_codes ->
      Exists (contains s) midfielder_codes -> deriveGroup s = "Midfielder"%string)
  /\ (~ contains s "GK" -> ~ Exists (contains s) defender_codes ->
      ~ Exists (contains s) midfielder_codes -> deriveGroup s = "Forward"%string)
  /\ deriveGroup "GK" = "Goalkeeper"%string
  /\ deriveGroup "LB, LM" = "Defender"%string
  /\ deriveGroup "ST" = "Forward"%string
  /\ deriveGroup "CAM, RW" = "Midfielder"%string.
Proof.
  unfold deriveGroup at 1 2 3 4.
  destruct (indexof s "GK" >=? 0)%Z eqn:Egk.
  - apply indexof_contains in Egk.
    repeat split; try reflexivity; intros; contradiction.
  - apply indexof_not_contains in Egk.
    match goal with
    | |- context [if ?b then "Defender"%string else _] => destruct b eqn:Edef
    end.
    + apply defender_rule in Edef.
      repeat split; try reflexivity; intros; contradiction.
    + assert (Hdef : ~ Exists (contains s) defender_codes).
      { rewrite <- defender_rule, Edef. discriminate. }
      match goal with
      | |- context [if ?b then "Midfielder"%string else _] => destruct b eqn:Emid
      end.
      * apply midfielder_rule in Emid.
        repeat split; try reflexivity; intros; contradiction.
      * assert (Hmid : ~ Exists (contains s) midfielder_codes).
        { rewrite <- midfielder_rule, Emid. discriminate. }
        repeat split; try reflexivity; intros; contradiction.
Qed.

(** Every group is one the filter offers. *)
Lemma deriveGroup_range (s : string) :
  In (deriveGroup s) filter_options /\ deriveGroup s <> "All"%string.
Proof.
  unfold deriveGroup, filter_options.
  repeat match goal with
         | |- context [if ?b then _ else _] => destruct b
         end; simpl; split; try discriminate; tauto.
Qed.

(** ** The transform pipeline *)

Lemma after_filter_unfold p dataset :
  after_filter p dataset = List.filter (filterExpr p) (before_filter dataset).
Proof. reflexivity. Qed.

Lemma filter_true {A} (l : list A) : List.filter (fun _ => true) l = l.
Proof. induction l as [|a l IH]; simpl; [|rewrite IH]; reflexivity. Qed.

Lemma filterExpr_other p d :
  p <> "All"%string -> filterExpr p d = true -> group d = Some p.
Proof.
  intros Hp. unfold filterExpr.
  destruct (String.eqb p "All") eqn:E; [apply String.eqb_eq in E; contradiction|].
  unfold group_is. destruct (group d) as [g|]; [|discriminate].
  intros Hg. apply String.eqb_eq in Hg. congruence.
Qed.

(** C6: for a filter value other than ["All"], every record that leaves the
    filter stage has [group] equal to the filter value; for ["All"] the
    filter stage keeps every record, so the record set has the size it had
    before the stage. *)
Theorem filter_stage_keeps_group (dataset : list Datum) :
  (forall p : string, p <> "All"%string ->
     Forall (fun d => group d = Some p) (after_filter p dataset))
  /\ after_filter "All" dataset = before_filter dataset
  /\ length (after_filter "All" dataset) = length (before_filter dataset).
Proof.
  assert (HAll : after_filter "All" dataset = before_filter dataset).
  { rewrite after_filter_unfold. apply filter_true. }
  split; [|split; [exact HAll | rewrite HAll; reflexivity]].
  intros p Hp. rewrite after_filter_unfold. apply List.Forall_forall.
  intros d Hd. apply filter_In in Hd as [_ Hd].
  apply (filterExpr_other p d Hp Hd).
Qed.

Lemma bump_total k acc : total (bump k acc) = S (total acc).
Proof.
  unfold total. induction acc as [|[k' c] acc IH]; simpl; [reflexivity|].
  destruct (k =? k')%Z; simpl; [reflexivity|]. rewrite IH. lia.
Qed.

Lemma fold_bump_total (g : float -> Z) (xs : list float) (acc : list (Z * nat)) :
  total (fold_left (fun acc x => bump (g x) acc) xs acc) = (length xs + total acc)%nat.
Proof.
  revert acc. induction xs as [|x xs IH]; intros acc; simpl; [reflexivity|].
  rewrite IH, bump_total. lia.
Qed.

Lemma histogram_total `{Charting} maxbins rows :
  total (histogram maxbins rows) = length rows.
Proof.
  unfold histogram. rewrite fold_bump_total, length_map. unfold total. simpl. lia.
Qed.

(** C7: the counts of the histogram series add up to the number of records
    that left the filter stage, for every dataset, every filter selection
    and every binning; when no record is left the series is empty. *)
Theorem histogram_counts_sum `{Charting} (posFilter : string) (dataset : list Datum) :
  series (wageHistSpec posFilter) dataset
  = Histogram (histogram 30 (after_filter posFilter dataset))
  /\ total (histogram 30 (after_filter posFilter dataset))
     = length (after_filter posFilter dataset)
  /\ (after_filter posFilter dataset = [] ->
      series (wageHistSpec posFilter) dataset = Histogram []).
Proof.
  split; [reflexivity|]. split; [apply histogram_total|].
  intros Hempty. unfold series. fold (after_filter posFilter dataset).
  rewrite Hempty. reflexivity.
Qed.

(** C10: the box-summary chart does not depend on the position-group
    filter.  Its transform is the derive and rescale stages and holds no
    filter stage, so setting [posFilter] leaves its specification and its
    series unchanged on every dataset; of what the component renders only
    the histogram specification follows the filter. *)
Theorem box_chart_ignores_posFilter `{Runtime} `{Charting}
    (coefs : gmap string float) (st : State) (v : string) (dataset : list Datum) :
  box_chart (App coefs (setPosFilter v st)) = box_chart (App coefs st)
  /\ transform (box_chart (App coefs st))
     = [CalculateGroup calcGroupExpr; CalculateWageUsd wageUsdExpr]
  /\ existsb is_filter (transform (box_chart (App coefs st))) = false
  /\ series (box_chart (App coefs (setPosFilter v st))) dataset
     = series (box_chart (App coefs st)) dataset
  /\ series (box_chart (App coefs st)) dataset = Boxes (box_summary (before_filter dataset))
  /\ coef_chart (App coefs (setPosFilter v st)) = coef_chart (App coefs st)
  /\ predicted_text (App coefs (setPosFilter v st)) = predicted_text (App coefs st)
  /\ hist_chart (App coefs (setPosFilter v st)) = wageHistSpec v.
Proof. repeat split. Qed.

(** The histogram does follow the filter: with equal-width bins, a
    goalkeeper and a striker fill two bins under ["All"] and one under
    ["Goalkeeper"]. *)
Lemma histogram_follows_posFilter :
  let dataset := [ {| positions := "GK"; wage_euro := 1000; group := None; wage_usd := None |};
                   {| positions := "ST"; wage_euro := 3000; group := None; wage_usd := None |} ] in
  series (H := RefChart.charting) (hist_chart (App (H := Ref.runtime) ∅ initial_state)) dataset
    = Histogram [(0%Z, 1%nat); (29%Z, 1%nat)]
  /\ series (H := RefChart.charting)
       (hist_chart (App (H := Ref.runtime) ∅ (setPosFilter "Goalkeeper" initial_state))) dataset
    = Histogram [(0%Z, 1%nat)].
Proof. split; vm_compute; reflexivity. Qed.

(** ** The coefficient loader *)

Lemma assign_other m k v t : k <> t -> assign m k v !! t = m !! t.
Proof.
  intros Hk. unfold assign. destruct (String.eqb k "__proto__"); [reflexivity|].
  apply lookup_insert_ne, Hk.
Qed.

Lemma assign_same m k v : k <> "__proto__"%string -> assign m k v !! k = Some v.
Proof.
  intros Hk. unfold assign.
  destruct (String.eqb k "__proto__") eqn:E; [apply String.eqb_eq in E; contradiction|].
  apply lookup_insert_eq.
Qed.

Lemma fold_assign_keeps `{Runtime} (post : list CoefRecord)
    (acc : gmap string float) (t : string) (v : float) :
  Forall (fun d => term d <> t) post ->
  acc !! t = Some v ->
  fold_left (fun m d => assign m (term d) (ToNumber (estimate d))) post acc !! t = Some v.
Proof.
  revert acc. induction post as [|d post IH]; intros acc Hpost Hacc; simpl; [exact Hacc|].
  apply Forall_cons in Hpost as [Hd Hpost]. apply IH; [exact Hpost|].
  rewrite assign_other by exact Hd. exact Hacc.
Qed.

(** The last record of a term decides what the map holds for it. *)
Lemma collect_last `{Runtime} (pre post : list CoefRecord) (d : CoefRecord) :
  term d <> "__proto__"%string ->
  Forall (fun d' => term d' <> term d) post ->
  collect (pre ++ d :: post) !! term d = Some (ToNumber (estimate d)).
Proof.
  intros Hd Hpost. unfold collect. rewrite fold_left_app. simpl.
  apply fold_assign_keeps; [exact Hpost|]. apply assign_same, Hd.
Qed.

(** A term stored as [NaN] weighs in [eta] as an absent one does. *)
Lemma eta_delete_nan (coefs : gmap string float) (t : string) (f : FeatureVector) :
  coefs !! t = Some nan -> eta (delete t coefs) f = eta coefs f.
Proof.
  intros Ht.
  assert (E : forall k, or_zero (delete t coefs !! k) = or_zero (coefs !! k)).
  { intros k. destruct (decide (t = k)) as [<-|Hne].
    - rewrite lookup_delete_eq, Ht. reflexivity.
    - rewrite lookup_delete_ne by exact Hne. reflexivity. }
  unfold eta. rewrite !E. reflexivity.
Qed.

(** C3, as stated, fails: the record [{term: "age", estimate: "abc"}] is
    loaded without any condition being raised, and the map the hook returns
    holds [NaN] for ["age"]. *)
Lemma loader_coerces_silently :
  let arr := [ {| term := "age"; estimate := VStr "abc" |} ] in
  StringToNumber (Runtime := Ref.runtime) "abc" = nan
  /\ useCoefficients (H := Ref.runtime) (Some arr) !! "age"%string = Some nan
  /\ silently_coerced (H := Ref.runtime) arr (useCoefficients (H := Ref.runtime) (Some arr)).
Proof.
  split; [reflexivity|]. split; [reflexivity|].
  eexists _, "abc"%string. split; [left; reflexivity|].
  split; [reflexivity|]. split; reflexivity.
Qed.

(** C3 (amended): when the record that decides a term carries an estimate
    text that is not a numeric literal, loading raises nothing: the map the
    hook returns stores [NaN] under the term.  The predictor then reads the
    term as 0, exactly as it reads an absent term. *)
Theorem unparseable_estimate_stored_as_nan `{Runtime}
    (pre post : list CoefRecord) (d : CoefRecord) (s : string) :
  estimate d = VStr s ->
  StringToNumber s = nan ->
  term d <> "__proto__"%string ->
  Forall (fun d' => term d' <> term d) post ->
  let coefs := useCoefficients (Some (pre ++ d :: post)) in
  coefs !! term d = Some nan
  /\ silently_coerced (pre ++ d :: post) coefs
  /\ coef coefs (term d) = 0
  /\ (forall f, eta coefs f = eta (delete (term d) coefs) f).
Proof.
  intros He Hs Hd Hpost coefs.
  assert (Hl : coefs !! term d = Some nan).
  { unfold coefs, useCoefficients. rewrite (collect_last pre post d Hd Hpost), He.
    simpl. rewrite Hs. reflexivity. }
  split; [exact Hl|]. split; [|split].
  - exists d, s. split; [apply in_elt|]. auto.
  - apply coef_nan, Hl.
  - intros f. symmetry. apply eta_delete_nan, Hl.
Qed.

(** The record [{term: "age", estimate: "abc"}] alone. *)
Lemma unparseable_estimate_stored_as_nan_witness :
  let d := {| term := "age"; estimate := VStr "abc" |} in
  let coefs := useCoefficients (H := Ref.runtime) (Some ([] ++ d :: [])) in
  coefs !! term d = Some nan
  /\ silently_coerced (H := Ref.runtime) ([] ++ d :: []) coefs
  /\ coef coefs (term d) = 0
  /\ (forall f, eta coefs f = eta (delete (term d) coefs) f).
Proof.
  apply (unparseable_estimate_stored_as_nan (H := Ref.runtime) [] []
           {| term := "age"; estimate := VStr "abc" |} "abc");
    [reflexivity | reflexivity | discriminate | constructor].
Defined.

(** ** Scaling a coefficient against its feature *)

Lemma ToBoolean_SF x : ToBoolean x = sf_truthy (Prim2SF x).
Proof.
  unfold ToBoolean.
  destruct (is_zero x) eqn:Ez.
  - apply F64.is_zero_SF in Ez as [s ->]. reflexivity.
  - destruct (is_nan x) eqn:En.
    + apply F64.is_nan_SF in En. rewrite En. reflexivity.
    + simpl. destruct (Prim2SF x) as [s|s| |s m e] eqn:E; try reflexivity.
      * assert (is_zero x = true) by (apply F64.is_zero_SF; eauto). congruence.
      * assert (is_nan x = true) by (apply F64.is_nan_SF; assumption). congruence.
Qed.

Lemma is_pow2_SF k :
  is_pow2 k = true -> Prim2SF k = S754_finite false two52 (log2_of k - 52).
Proof.
  unfold is_pow2, log2_of. destruct (Prim2SF k) as [s|s| |s m e]; try discriminate.
  destruct s; [discriminate|]. intros Hm. apply Pos.eqb_eq in Hm. subst m.
  f_equal. lia.
Qed.

Lemma scales_exactly_SF j x :
  scales_exactly j x = true -> valid_binary (sf_scale j (Prim2SF x)) = true.
Proof.
  unfold scales_exactly. destruct (Prim2SF x); simpl; auto.
Qed.

(** [k * x] and [x / k] for [k] a power of two, when nothing is lost. *)
Lemma mul_pow2 k x :
  is_pow2 k = true -> scales_exactly (log2_of k) x = true ->
  Prim2SF (k * x) = sf_scale (log2_of k) (Prim2SF x).
Proof.
  intros Hk Hx. rewrite mul_spec, (is_pow2_SF k Hk).
  rewrite F64.SFmul_pow2.
  - f_equal. lia.
  - apply Prim2SF_valid.
  - replace (log2_of k - 52 + 52)%Z with (log2_of k) by lia.
    apply scales_exactly_SF, Hx.
Qed.

Lemma div_pow2 k x :
  is_pow2 k = true -> scales_exactly (- log2_of k) x = true ->
  Prim2SF (x / k) = sf_scale (- log2_of k) (Prim2SF x).
Proof.
  intros Hk Hx. rewrite div_spec, (is_pow2_SF k Hk).
  rewrite F64.SFdiv_pow2.
  - f_equal. lia.
  - apply Prim2SF_valid.
  - replace (- (log2_of k - 52 + 52))%Z with (- log2_of k)%Z by lia.
    apply scales_exactly_SF, Hx.
Qed.

Lemma SFmul_scale j x y :
  SF64mul (sf_scale j x) (sf_scale (- j) y) = SF64mul x y.
Proof.
  destruct x as [s|s| |s m e], y as [s'|s'| |s' m' e']; try reflexivity.
  unfold SF64mul, SFmul, sf_scale. f_equal. lia.
Qed.

(** [(k * b || 0)] is [(b || 0)] scaled. *)
Lemma or_zero_scaled k (v : option float) :
  is_pow2 k = true -> scales_exactly (log2_of k) (or_zero v) = true ->
  Prim2SF (or_zero ((fun b => k * b) <$> v))
  = sf_scale (log2_of k) (Prim2SF (or_zero v)).
Proof.
  intros Hk Hv. destruct v as [b|]; [|reflexivity]. simpl in *.
  assert (Hb : scales_exactly (log2_of k) b = true).
  { destruct (ToBoolean b) eqn:Eb; [exact Hv|].
    rewrite ToBoolean_SF in Eb. unfold scales_exactly.
    destruct (Prim2SF b); try discriminate; reflexivity. }
  pose proof (mul_pow2 k b Hk Hb) as Hm.
  assert (Ht : ToBoolean (k * b) = ToBoolean b).
  { rewrite !ToBoolean_SF, Hm. destruct (Prim2SF b); reflexivity. }
  rewrite Ht. destruct (ToBoolean b); [exact Hm | reflexivity].
Qed.

Lemma scaled_product k (v : option float) (a : float) :
  is_pow2 k = true ->
  scales_exactly (log2_of k) (or_zero v) = true ->
  scales_exactly (- log2_of k) a = true ->
  or_zero ((fun b => k * b) <$> v) * (a / k) = or_zero v * a.
Proof.
  intros Hk Hv Ha. apply Prim2SF_inj.
  rewrite !mul_spec, (or_zero_scaled k v Hk Hv), (div_pow2 k a Hk Ha).
  apply SFmul_scale.
Qed.

(** The side conditions at work: 2 and 1/2 are powers of two, 3 and -2 are
    not taken; doubling [1e308] overflows and halving the least positive
    value drops its only bit. *)
Lemma pow2_examples :
  is_pow2 2 = true /\ log2_of 2 = 1%Z
  /\ is_pow2 0.5 = true /\ log2_of 0.5 = (-1)%Z
  /\ is_pow2 3 = false /\ is_pow2 (-2) = false
  /\ scales_exactly 1 1e308 = false
  /\ scales_exactly (-1) 5e-324 = false
  /\ scales_exactly 1 (-0.01) = true /\ scales_exactly (-1) 24 = true.
Proof. repeat split. Qed.

(** Without them even doubling fails: with the age coefficient [1e308],
    twice the coefficient is [+Infinity]. *)
Lemma doubling_can_overflow :
  let coefs : gmap string float := {["age"%string := 1e308]} in
  let f := {| age := 0.5; rating := 85; pg := "Midfielder"; foot := "Right" |} in
  age_term coefs f = 5e307
  /\ age_term (scale_coef "age" 2 coefs) (divide_age 2 f) = infinity.
Proof. split; vm_compute; reflexivity. Qed.

(** C9, as stated, fails for [k = 3] and [k = 7]: on the scenario of the
    specification, tripling the rating coefficient and dividing the rating
    by 3 moves the rating term from [4.25] to [4.250000000000001] and [eta]
    from [10.129999999999999] to [10.13]; multiplying the age coefficient
    by 7 and dividing the age by 7 moves the age term. *)
Lemma scaling_by_three_changes_eta :
  rating_term (scale_coef "overall_rating" 3 scenario_coefs)
    (divide_rating 3 scenario_features)
  <> rating_term scenario_coefs scenario_features
  /\ eta (scale_coef "overall_rating" 3 scenario_coefs)
       (divide_rating 3 scenario_features)
     <> eta scenario_coefs scenario_features
  /\ age_term (scale_coef "age" 7 scenario_coefs) (divide_age 7 scenario_features)
     <> age_term scenario_coefs scenario_features
  /\ rating_term scenario_coefs scenario_features = 4.25
  /\ rating_term (scale_coef "overall_rating" 3 scenario_coefs)
       (divide_rating 3 scenario_features) = 4.2500000000000009
  /\ eta scenario_coefs scenario_features = 10.129999999999999
  /\ eta (scale_coef "overall_rating" 3 scenario_coefs)
       (divide_rating 3 scenario_features) = 10.130000000000001
  /\ age_term scenario_coefs scenario_features = -0.24
  /\ age_term (scale_coef "age" 7 scenario_coefs) (divide_age 7 scenario_features)
     = -0.24000000000000002.
Proof.
  repeat split; try (vm_compute; reflexivity);
    intros H; apply (f_equal Prim2SF) in H; vm_compute in H; discriminate H.
Qed.

Lemma eta_terms coefs f :
  eta coefs f =
  0 + or_zero (coefs !! "Intercept"%string) + age_term coefs f + rating_term coefs f
  + or_zero (coefs !! ("position_group_" +:+ pg f))
  + or_zero (coefs !! ("preferred_foot_" +:+ foot f)).
Proof. reflexivity. Qed.

Lemma age_term_scaled k coefs f :
  is_pow2 k = true ->
  scales_exactly (log2_of k) (coef coefs "age") = true ->
  scales_exactly (- log2_of k) (age f) = true ->
  age_term (scale_coef "age" k coefs) (divide_age k f) = age_term coefs f.
Proof.
  intros Hk Hb Ha. unfold age_term, scale_coef. rewrite lookup_alter_eq.
  apply scaled_product; assumption.
Qed.

Lemma rating_term_scaled k coefs f :
  is_pow2 k = true ->
  scales_exactly (log2_of k) (coef coefs "overall_rating") = true ->
  scales_exactly (- log2_of k) (rating f) = true ->
  rating_term (scale_coef "overall_rating" k coefs) (divide_rating k f)
  = rating_term coefs f.
Proof.
  intros Hk Hb Ha. unfold rating_term, scale_coef. rewrite lookup_alter_eq.
  apply scaled_product; assumption.
Qed.

Lemma SFmul_scaled sk mk ek C C' A A' :
  valid_binary C = true -> valid_binary C' = true ->
  valid_binary A = true -> valid_binary A' = true ->
  sf_times sk mk ek C C' -> sf_over sk mk ek A A' ->
  sf_truthy C = true ->
  SF64mul C' A' = SF64mul C A.
Proof.
  intros VC VC' VA VA' HC HA Ht.
  destruct C as [s|s| |s m e]; try discriminate; cbn [sf_times] in HC.
  - subst C'. destruct A as [s'|s'| |s' m' e']; cbn [sf_over] in HA.
    + subst A'. reflexivity.
    + subst A'. destruct sk, s, s'; reflexivity.
    + subst A'. reflexivity.
    + destruct HA as (m2 & e2 & -> & _). destruct sk, s, s'; reflexivity.
  - destruct HC as (m1 & e1 & -> & H1).
    destruct A as [s'|s'| |s' m' e']; cbn [sf_over] in HA.
    + subst A'. destruct sk, s, s'; reflexivity.
    + subst A'. destruct sk, s, s'; reflexivity.
    + subst A'. reflexivity.
    + destruct HA as (m2 & e2 & -> & H2).
      cbn [valid_binary] in *. unfold SF64mul, SFmul.
      replace (xorb (xorb sk s) (xorb s' sk)) with (xorb s s') by (destruct sk, s, s'; reflexivity).
      apply round_same_product; try assumption.
      rewrite H1, <- H2. ring.
Qed.

Lemma SFmul_zero_scaled sk mk ek A A' :
  sf_over sk mk ek A A' ->
  (sk = false -> SF64mul (S754_zero false) A' = SF64mul (S754_zero false) A)
  /\ (SF64mul (S754_zero false) A' = SF64mul (S754_zero false) A
      \/ exists s s', SF64mul (S754_zero false) A' = S754_zero s
                      /\ SF64mul (S754_zero false) A = S754_zero s').
Proof.
  intros HA. destruct A as [s|s| |s m e]; cbn [sf_over] in HA.
  - subst A'. split; [intros ->; rewrite xorb_false_r; reflexivity|].
    right. simpl. eauto.
  - subst A'. split; [reflexivity|]. left. reflexivity.
  - subst A'. split; [reflexivity|]. left. reflexivity.
  - destruct HA as (m2 & e2 & -> & _). split; [intros ->; rewrite xorb_false_r; reflexivity|].
    right. simpl. eauto.
Qed.

Lemma positive_sign k sk mk ek :
  Prim2SF k = S754_finite sk mk ek -> (0 <? k) = true -> sk = false.
Proof.
  intros Hk. rewrite ltb_spec, Hk. change (Prim2SF 0) with (S754_zero false).
  unfold SFltb. simpl. destruct sk; [discriminate|reflexivity].
Qed.

Lemma zero_times_scaled k a :
  is_finite k = true -> is_zero k = false ->
  exact_quotient a k = true ->
  same_contribution (0 * (a / k)) (0 * a)
  /\ ((0 <? k) = true -> 0 * (a / k) = 0 * a).
Proof.
  intros Hf Hz Hq. destruct (finite_nonzero_SF k Hf Hz) as (sk & mk & ek & Hk).
  pose proof (div_exact_SF a k sk mk ek Hk Hq) as HA.
  destruct (SFmul_zero_scaled sk mk ek _ _ HA) as [Hpos Hany].
  split.
  - destruct Hany as [E | (s & s' & E1 & E2)].
    + left. apply Prim2SF_inj. rewrite !mul_spec. exact E.
    + right. split; apply F64.is_zero_SF; rewrite mul_spec; eauto.
  - intros Hk0. apply Prim2SF_inj. rewrite !mul_spec.
    apply Hpos. eapply positive_sign; eassumption.
Qed.

(** The scaled term against the term. *)
Lemma scaled_product_exact k (v : option float) (a : float) :
  is_finite k = true -> is_zero k = false ->
  exact_product k (or_zero v) = true ->
  exact_quotient a k = true ->
  same_contribution (or_zero ((fun b => k * b) <$> v) * (a / k)) (or_zero v * a)
  /\ (ToBoolean (or_zero v) = true \/ (0 <? k) = true ->
      or_zero ((fun b => k * b) <$> v) * (a / k) = or_zero v * a).
Proof.
  intros Hf Hz Hp Hq.
  destruct (finite_nonzero_SF k Hf Hz) as (sk & mk & ek & Hk).
  assert (Hzero : or_zero v = 0 -> or_zero ((fun b => k * b) <$> v) = 0 ->
                  same_contribution (or_zero ((fun b => k * b) <$> v) * (a / k)) (or_zero v * a)
                  /\ (ToBoolean (or_zero v) = true \/ (0 <? k) = true ->
                      or_zero ((fun b => k * b) <$> v) * (a / k) = or_zero v * a)).
  { intros -> ->. destruct (zero_times_scaled k a Hf Hz Hq) as [H1 H2].
    split; [exact H1|]. intros [H|H]; [discriminate H | exact (H2 H)]. }
  destruct v as [b|]; [|apply Hzero; reflexivity].
  cbn [or_zero fmap option_fmap option_map] in *.
  destruct (ToBoolean b) eqn:Eb.
  - pose proof (mul_exact_SF k b sk mk ek Hk Hp) as HC.
    pose proof (div_exact_SF a k sk mk ek Hk Hq) as HA.
    assert (Et : ToBoolean (k * b) = true).
    { rewrite ToBoolean_SF in Eb |- *.
      destruct (Prim2SF b) as [s|s| |s m e]; try discriminate; cbn [sf_times] in HC.
      - rewrite HC. reflexivity.
      - destruct HC as (m' & e' & -> & _). reflexivity. }
    rewrite Et.
    assert (E : k * b * (a / k) = b * a).
    { apply Prim2SF_inj. rewrite (mul_spec (k * b) (a / k)), (mul_spec b a).
      apply (SFmul_scaled sk mk ek); try apply Prim2SF_valid; try assumption.
      rewrite <- ToBoolean_SF. exact Eb. }
    split; [left; exact E | intros _; exact E].
  - assert (Et : ToBoolean (k * b) = false).
    { rewrite ToBoolean_SF in Eb |- *. rewrite mul_spec, Hk.
      destruct (Prim2SF b) as [s|s| |s m e]; try discriminate; reflexivity. }
    rewrite Et in Hzero |- *. apply Hzero; reflexivity.
Qed.

(** Sums see no difference between two zeros, once a coefficient read
    through [|| 0] is added. *)
Lemma sc_add_r x y y' :
  same_contribution y y' -> same_contribution (x + y) (x + y').
Proof.
  intros [->|[Hy Hy']]; [left; reflexivity|].
  apply F64.is_zero_SF in Hy as [s Hy], Hy' as [s' Hy'].
  destruct (Prim2SF x) as [sx|sx| |sx mx ex] eqn:Ex.
  - right. split; apply F64.is_zero_SF; rewrite add_spec, Ex; [rewrite Hy|rewrite Hy'];
      unfold SF64add, SFadd; [destruct sx, s|destruct sx, s']; eauto.
  - left. apply Prim2SF_inj. rewrite !add_spec, Ex, Hy, Hy'. reflexivity.
  - left. apply Prim2SF_inj. rewrite !add_spec, Ex, Hy, Hy'. reflexivity.
  - left. apply Prim2SF_inj. rewrite !add_spec, Ex, Hy, Hy'. reflexivity.
Qed.

Lemma sc_add_l x x' y :
  same_contribution x x' -> same_contribution (x + y) (x' + y).
Proof.
  intros [->|[Hx Hx']]; [left; reflexivity|].
  apply F64.is_zero_SF in Hx as [s Hx], Hx' as [s' Hx'].
  destruct (Prim2SF y) as [sy|sy| |sy my ey] eqn:Ey.
  - right. split; apply F64.is_zero_SF; rewrite add_spec, Ey; [rewrite Hx|rewrite Hx'];
      unfold SF64add, SFadd; [destruct s, sy|destruct s', sy]; eauto.
  - left. apply Prim2SF_inj. rewrite !add_spec, Ey, Hx, Hx'. reflexivity.
  - left. apply Prim2SF_inj. rewrite !add_spec, Ey, Hx, Hx'. reflexivity.
  - left. apply Prim2SF_inj. rewrite !add_spec, Ey, Hx, Hx'. reflexivity.
Qed.

Lemma sc_add_or_zero x x' v :
  same_contribution x x' -> x + or_zero v = x' + or_zero v.
Proof.
  intros [->|[Hx Hx']]; [reflexivity|].
  apply F64.is_zero_SF in Hx as [s Hx], Hx' as [s' Hx'].
  pose proof (or_zero_not_neg_zero v) as Hv.
  apply Prim2SF_inj. rewrite !add_spec, Hx, Hx'.
  destruct (Prim2SF (or_zero v)) as [sy|sy| |sy my ey] eqn:Ey; try reflexivity.
  destruct sy.
  - exfalso. apply Hv. apply Prim2SF_inj. rewrite Ey. reflexivity.
  - destruct s, s'; reflexivity.
Qed.

Lemma age_scaling_eta k coefs f :
  same_contribution (age_term (scale_coef "age" k coefs) (divide_age k f)) (age_term coefs f) ->
  eta (scale_coef "age" k coefs) (divide_age k f) = eta coefs f.
Proof.
  intros H. rewrite !eta_terms.
  assert (Er : rating_term (scale_coef "age" k coefs) (divide_age k f) = rating_term coefs f).
  { unfold rating_term, scale_coef. cbn [divide_age rating].
    rewrite lookup_alter_ne by discriminate. reflexivity. }
  rewrite Er. unfold scale_coef at 1 3 4. cbn [divide_age pg foot].
  rewrite !lookup_alter_ne by discriminate.
  apply sc_add_or_zero, sc_add_l, sc_add_l, sc_add_r, H.
Qed.

Lemma rating_scaling_eta k coefs f :
  same_contribution (rating_term (scale_coef "overall_rating" k coefs) (divide_rating k f))
    (rating_term coefs f) ->
  eta (scale_coef "overall_rating" k coefs) (divide_rating k f) = eta coefs f.
Proof.
  intros H. rewrite !eta_terms.
  assert (Ea : age_term (scale_coef "overall_rating" k coefs) (divide_rating k f)
               = age_term coefs f).
  { unfold age_term, scale_coef. cbn [divide_rating age].
    rewrite lookup_alter_ne by discriminate. reflexivity. }
  rewrite Ea. unfold scale_coef at 1 3 4. cbn [divide_rating pg foot].
  rewrite !lookup_alter_ne by discriminate.
  apply sc_add_or_zero, sc_add_l, sc_add_r, H.
Qed.

(** For [k] a power of two the two scalings are exact as long as they move
    the exponent without leaving the range: the doubling and halving of the
    specification's example. *)
Lemma pow2_product_exact k x :
  is_pow2 k = true -> scales_exactly (log2_of k) x = true ->
  exact_product k x = true.
Proof.
  intros Hk Hx. unfold exact_product.
  rewrite (mul_pow2 k x Hk Hx), (is_pow2_SF k Hk).
  destruct (Prim2SF x) as [s|s| |s m e]; try reflexivity.
  cbn [sf_scale]. unfold dyadic_eqb. apply Z.eqb_eq.
  rewrite Z.min_r by lia. rewrite Pos2Z.inj_mul.
  replace (e + log2_of k - (log2_of k - 52 + e))%Z with 52%Z by lia.
  rewrite Z.sub_diag. change (Z.pos two52) with (2 ^ 52)%Z. lia.
Qed.

Lemma pow2_quotient_exact k x :
  is_pow2 k = true -> scales_exactly (- log2_of k) x = true ->
  exact_quotient x k = true.
Proof.
  intros Hk Hx. unfold exact_quotient.
  rewrite (div_pow2 k x Hk Hx), (is_pow2_SF k Hk).
  destruct (Prim2SF x) as [s|s| |s m e]; try reflexivity.
  cbn [sf_scale]. unfold dyadic_eqb. apply Z.eqb_eq.
  rewrite Z.min_l by lia. rewrite Pos2Z.inj_mul.
  replace (e - (e + - log2_of k + (log2_of k - 52)))%Z with 52%Z by lia.
  rewrite Z.sub_diag. change (Z.pos two52) with (2 ^ 52)%Z. lia.
Qed.

(** Doubling a coefficient while halving its feature, the example of the
    specification, and any other power of two within range. *)
Corollary power_of_two_scaling (coefs : gmap string float) (f : FeatureVector) (k : float) :
  is_pow2 k = true ->
  (scales_exactly (log2_of k) (coef coefs "age") = true ->
   scales_exactly (- log2_of k) (age f) = true ->
   age_term (scale_coef "age" k coefs) (divide_age k f) = age_term coefs f
   /\ eta (scale_coef "age" k coefs) (divide_age k f) = eta coefs f)
  /\ (scales_exactly (log2_of k) (coef coefs "overall_rating") = true ->
      scales_exactly (- log2_of k) (rating f) = true ->
      rating_term (scale_coef "overall_rating" k coefs) (divide_rating k f)
      = rating_term coefs f
      /\ eta (scale_coef "overall_rating" k coefs) (divide_rating k f) = eta coefs f).
Proof.
  intros Hk. split; intros Hb Ha.
  - pose proof (age_term_scaled k coefs f Hk Hb Ha) as E.
    split; [exact E | apply age_scaling_eta; left; exact E].
  - pose proof (rating_term_scaled k coefs f Hk Hb Ha) as E.
    split; [exact E | apply rating_scaling_eta; left; exact E].
Qed.

(** The side condition at work.  Scaling by [-2] is exact, and so is halving
    the subnormal [1e-323] and tripling [0.5] against a third of 24;
    tripling [0.05], a third of 85 and a seventh of 24 are rounded; doubling
    [1e308] overflows and halving the least positive value rounds to
    zero. *)
Lemma exact_scaling_examples :
  exact_product (-2) (-0.01) = true /\ exact_quotient 24 (-2) = true
  /\ exact_quotient 1e-323 2 = true
  /\ exact_product 3 0.5 = true /\ exact_quotient 24 3 = true
  /\ exact_product 3 0.05 = false /\ exact_quotient 85 3 = false
  /\ exact_quotient 24 7 = false
  /\ exact_product 2 1e308 = false /\ exact_quotient 5e-324 2 = false.
Proof. repeat split; vm_compute; reflexivity. Qed.

(** With a negative [k] and a coefficient that reads as 0 the scaled term is
    a zero of the other sign, which adds the same to [eta]: with no age
    coefficient and [k = -2] the age term moves from [+0] to [-0]. *)
Lemma negative_scaling_flips_zero :
  let f := {| age := 24; rating := 85; pg := "Midfielder"; foot := "Right" |} in
  age_term ∅ f = 0
  /\ age_term (scale_coef "age" (-2) ∅) (divide_age (-2) f) = neg_zero
  /\ eta (scale_coef "age" (-2) ∅) (divide_age (-2) f) = eta ∅ f.
Proof. repeat split; vm_compute; reflexivity. Qed.

(** C9 (amended): for every coefficient map, feature vector and finite
    nonzero [k] such that [k] times the age coefficient and the age divided
    by [k] are computed exactly (the computed values are the real product
    and the real quotient: nothing is rounded off, nothing overflows),
    replacing the age coefficient by [k] times its value and the age by
    [age / k] leaves [eta] and the prediction unchanged, and leaves the age
    term's contribution unchanged: the term is the same number, and the
    same value unless it is a zero, whose sign a negative [k] can flip when
    the coefficient reads as 0.  The same holds for ["overall_rating"] and
    the rating, under the two conditions on the rating coefficient and the
    rating alone.  And for any [k] at all, whenever the scaled term is the
    same number as the term, [eta] and the prediction are unchanged. *)
Theorem exact_scaling_leaves_eta `{Runtime} (targetIsLog : bool) (currencyRate : float)
    (coefs : gmap string float) (f : FeatureVector) (k : float) :
  (is_finite k = true -> is_zero k = false ->
   (exact_product k (coef coefs "age") = true ->
    exact_quotient (age f) k = true ->
    same_contribution (age_term (scale_coef "age" k coefs) (divide_age k f))
      (age_term coefs f)
    /\ (ToBoolean (coef coefs "age") = true \/ (0 <? k) = true ->
        age_term (scale_coef "age" k coefs) (divide_age k f) = age_term coefs f)
    /\ eta (scale_coef "age" k coefs) (divide_age k f) = eta coefs f
    /\ predict targetIsLog currencyRate (scale_coef "age" k coefs) (divide_age k f)
       = predict targetIsLog currencyRate coefs f)
   /\ (exact_product k (coef coefs "overall_rating") = true ->
       exact_quotient (rating f) k = true ->
       same_contribution
         (rating_term (scale_coef "overall_rating" k coefs) (divide_rating k f))
         (rating_term coefs f)
       /\ (ToBoolean (coef coefs "overall_rating") = true \/ (0 <? k) = true ->
           rating_term (scale_coef "overall_rating" k coefs) (divide_rating k f)
           = rating_term coefs f)
       /\ eta (scale_coef "overall_rating" k coefs) (divide_rating k f) = eta coefs f
       /\ predict targetIsLog currencyRate (scale_coef "overall_rating" k coefs)
            (divide_rating k f)
          = predict targetIsLog currencyRate coefs f))
  /\ (same_contribution (age_term (scale_coef "age" k coefs) (divide_age k f))
        (age_term coefs f) ->
      eta (scale_coef "age" k coefs) (divide_age k f) = eta coefs f
      /\ predict targetIsLog currencyRate (scale_coef "age" k coefs) (divide_age k f)
         = predict targetIsLog currencyRate coefs f)
  /\ (same_contribution
        (rating_term (scale_coef "overall_rating" k coefs) (divide_rating k f))
        (rating_term coefs f) ->
      eta (scale_coef "overall_rating" k coefs) (divide_rating k f) = eta coefs f
      /\ predict targetIsLog currencyRate (scale_coef "overall_rating" k coefs)
           (divide_rating k f)
         = predict targetIsLog currencyRate coefs f).
Proof.
  assert (Hage : same_contribution (age_term (scale_coef "age" k coefs) (divide_age k f))
                   (age_term coefs f) ->
                 eta (scale_coef "age" k coefs) (divide_age k f) = eta coefs f
                 /\ predict targetIsLog currencyRate (scale_coef "age" k coefs)
                      (divide_age k f)
                    = predict targetIsLog currencyRate coefs f).
  { intros Hs. pose proof (age_scaling_eta k coefs f Hs) as Eeta.
    split; [exact Eeta|]. unfold predict. rewrite Eeta. reflexivity. }
  assert (Hrating : same_contribution
                      (rating_term (scale_coef "overall_rating" k coefs) (divide_rating k f))
                      (rating_term coefs f) ->
                    eta (scale_coef "overall_rating" k coefs) (divide_rating k f)
                    = eta coefs f
                    /\ predict targetIsLog currencyRate (scale_coef "overall_rating" k coefs)
                         (divide_rating k f)
                       = predict targetIsLog currencyRate coefs f).
  { intros Hs. pose proof (rating_scaling_eta k coefs f Hs) as Eeta.
    split; [exact Eeta|]. unfold predict. rewrite Eeta. reflexivity. }
  split; [|split; assumption].
  intros Hf Hz. split.
  - intros Hp Hq.
    pose proof (scaled_product_exact k (coefs !! "age"%string) (age f) Hf Hz Hp Hq)
      as [Hs He].
    assert (Hs' : same_contribution (age_term (scale_coef "age" k coefs) (divide_age k f))
                    (age_term coefs f)).
    { unfold age_term, scale_coef. rewrite lookup_alter_eq. exact Hs. }
    split; [exact Hs'|]. split; [|exact (Hage Hs')].
    intros Hc. unfold age_term, scale_coef. rewrite lookup_alter_eq. apply He, Hc.
  - intros Hp Hq.
    pose proof (scaled_product_exact k (coefs !! "overall_rating"%string) (rating f)
                  Hf Hz Hp Hq) as [Hs He].
    assert (Hs' : same_contribution
                    (rating_term (scale_coef "overall_rating" k coefs) (divide_rating k f))
                    (rating_term coefs f)).
    { unfold rating_term, scale_coef. rewrite lookup_alter_eq. exact Hs. }
    split; [exact Hs'|]. split; [|exact (Hrating Hs')].
    intros Hc. unfold rating_term, scale_coef. rewrite lookup_alter_eq. apply He, Hc.
Qed.

(** Scaling by [-2] on the scenario: both scalings are exact, and the terms,
    [eta] and the prediction stay as they are. *)
Lemma exact_scaling_leaves_eta_witness :
  (age_term (scale_coef "age" (-2) scenario_coefs) (divide_age (-2) scenario_features)
   = age_term scenario_coefs scenario_features
   /\ eta (scale_coef "age" (-2) scenario_coefs) (divide_age (-2) scenario_features)
      = eta scenario_coefs scenario_features
   /\ predict (H := Ref.runtime) true 1.08 (scale_coef "age" (-2) scenario_coefs)
        (divide_age (-2) scenario_features)
      = predict (H := Ref.runtime) true 1.08 scenario_coefs scenario_features)
  /\ (rating_term (scale_coef "overall_rating" (-2) scenario_coefs)
        (divide_rating (-2) scenario_features)
      = rating_term scenario_coefs scenario_features
      /\ eta (scale_coef "overall_rating" (-2) scenario_coefs)
           (divide_rating (-2) scenario_features)
         = eta scenario_coefs scenario_features
      /\ predict (H := Ref.runtime) true 1.08 (scale_coef "overall_rating" (-2) scenario_coefs)
           (divide_rating (-2) scenario_features)
         = predict (H := Ref.runtime) true 1.08 scenario_coefs scenario_features).
Proof.
  destruct (exact_scaling_leaves_eta (H := Ref.runtime) true 1.08
              scenario_coefs scenario_features (-2)) as [Hexact _].
  destruct (Hexact eq_refl eq_refl) as [Ha Hr].
  destruct (Ha ltac:(vm_compute; reflexivity) ltac:(vm_compute; reflexivity))
    as (_ & Ea & Eeta & Ep).
  destruct (Hr ltac:(vm_compute; reflexivity) ltac:(vm_compute; reflexivity))
    as (_ & Er & Eeta' & Ep').
  split.
  - split; [apply Ea; left; vm_compute; reflexivity|]. split; [exact Eeta | exact Ep].
  - split; [apply Er; left; vm_compute; reflexivity|]. split; [exact Eeta' | exact Ep'].
Defined.

(** ** The scenario of the specification

    *** Bounds on the exponential

    [exp x] is enclosed by squaring [n] times an enclosure of
    [exp (x / 2 ^ n)], in fixed-point arithmetic with [p] fractional bits,
    rounding down for the lower and up for the upper bound. *)

Module ExpBound.

#[local] Open Scope R_scope.

Lemma exp_double t : exp (2 * t) = exp t * exp t.
Proof. replace (2 * t) with (t + t) by lra. apply exp_plus. Qed.

Lemma pow2_pos p : (0 <= p)%Z -> 0 < IZR (2 ^ p).
Proof. intros Hp. apply IZR_lt. apply Z.pow_pos_nonneg; lia. Qed.

Lemma sq_down_nonneg p a : (0 <= p)%Z -> (0 <= sq_down p a)%Z.
Proof. intros Hp. unfold sq_down. apply Z.div_pos; [nia | apply Z.pow_pos_nonneg; lia]. Qed.

Lemma sq_up_nonneg p a : (0 <= p)%Z -> (0 <= sq_up p a)%Z.
Proof.
  intros Hp. unfold sq_up. pose proof (Z.pow_pos_nonneg 2 p ltac:(lia) Hp).
  apply Z.div_pos; nia.
Qed.

Lemma lower_step p a t :
  (0 <= p)%Z -> (0 <= a)%Z ->
  IZR a / IZR (2 ^ p) <= exp t ->
  IZR (sq_down p a) / IZR (2 ^ p) <= exp (2 * t).
Proof.
  intros Hp Ha H. pose proof (pow2_pos p Hp) as HS.
  set (S := IZR (2 ^ p)) in *.
  assert (Hfloor : IZR (sq_down p a) * S <= IZR a * IZR a).
  { unfold S, sq_down. rewrite <- !mult_IZR. apply IZR_le.
    rewrite Z.mul_comm. apply Z.mul_div_le. apply Z.pow_pos_nonneg; lia. }
  assert (Hu : 0 <= IZR a / S).
  { apply Rmult_le_pos; [apply IZR_le; exact Ha | apply Rlt_le, Rinv_0_lt_compat, HS]. }
  rewrite exp_double.
  apply Rle_trans with (IZR a / S * (IZR a / S)).
  - apply Rmult_le_reg_r with (S * S); [nra|]. field_simplify; [|lra|lra]. nra.
  - apply Rmult_le_compat; assumption.
Qed.

Lemma upper_step p a t :
  (0 <= p)%Z ->
  exp t <= IZR a / IZR (2 ^ p) ->
  exp (2 * t) <= IZR (sq_up p a) / IZR (2 ^ p).
Proof.
  intros Hp H. pose proof (pow2_pos p Hp) as HS.
  set (S := IZR (2 ^ p)) in *.
  assert (Hceil : IZR a * IZR a <= IZR (sq_up p a) * S).
  { unfold S, sq_up. rewrite <- !mult_IZR. apply IZR_le.
    pose proof (Z.pow_pos_nonneg 2 p ltac:(lia) Hp) as Hpos.
    pose proof (Z.mul_succ_div_gt (a * a + 2 ^ p - 1) (2 ^ p) Hpos). lia. }
  pose proof (exp_pos t) as He.
  rewrite exp_double.
  apply Rle_trans with (IZR a / S * (IZR a / S)).
  - apply Rmult_le_compat; lra.
  - apply Rmult_le_reg_r with (S * S); [nra|]. field_simplify; [|lra|lra]. nra.
Qed.

Lemma lower_iter p n : forall a t,
  (0 <= p)%Z -> (0 <= a)%Z ->
  IZR a / IZR (2 ^ p) <= exp t ->
  IZR (iter_sq (sq_down p) n a) / IZR (2 ^ p) <= exp (2 ^ n * t).
Proof.
  induction n as [|n IH]; intros a t Hp Ha H; simpl.
  - rewrite Rmult_1_l. exact H.
  - replace (2 * 2 ^ n * t) with (2 ^ n * (2 * t)) by ring.
    apply IH; [exact Hp | apply sq_down_nonneg, Hp | apply lower_step; assumption].
Qed.

Lemma upper_iter p n : forall a t,
  (0 <= p)%Z ->
  exp t <= IZR a / IZR (2 ^ p) ->
  exp (2 ^ n * t) <= IZR (iter_sq (sq_up p) n a) / IZR (2 ^ p).
Proof.
  induction n as [|n IH]; intros a t Hp H; simpl.
  - rewrite Rmult_1_l. exact H.
  - replace (2 * 2 ^ n * t) with (2 ^ n * (2 * t)) by ring.
    apply IH; [exact Hp | apply upper_step; assumption].
Qed.

(** [1 + t <= exp t], and [exp t <= 1 / (1 - t)] below 1. *)
Lemma exp_upper t : t < 1 -> exp t <= / (1 - t).
Proof.
  intros Ht. pose proof (exp_ineq1_le (- t)) as H. rewrite exp_Ropp in H.
  pose proof (exp_pos t) as He.
  apply Rmult_le_reg_r with (1 - t); [lra|]. rewrite Rinv_l by lra.
  apply Rmult_le_reg_r with (/ exp t); [apply Rinv_0_lt_compat, He|].
  rewrite Rmult_assoc, (Rmult_comm (1 - t)), <- Rmult_assoc, Rinv_r by lra. lra.
Qed.

Lemma ratio_lt (num den L S : Z) :
  (0 < den)%Z -> (0 < S)%Z -> (num * S < den * L)%Z ->
  IZR num / IZR den < IZR L / IZR S.
Proof.
  intros Hd HS H. apply IZR_lt in Hd, HS, H. rewrite !mult_IZR in H.
  apply Rmult_lt_reg_r with (IZR den * IZR S); [nra|]. field_simplify; lra.
Qed.

Lemma exp_eta_lower : 250843 / 10 < exp (IZR eta_M / IZR (2 ^ 49)).
Proof.
  pose proof (lower_iter 100 40 (2 ^ 100 + eta_M * 2 ^ 11) (IZR eta_M / IZR (2 ^ 89))
                ltac:(lia) ltac:(vm_compute; discriminate)) as H.
  replace (2 ^ 40 * (IZR eta_M / IZR (2 ^ 89))) with (IZR eta_M / IZR (2 ^ 49)) in H.
  2:{ change (2 ^ 89)%Z with (2 ^ 49 * 2 ^ 40)%Z. rewrite mult_IZR.
      change (2 ^ 40)%Z with (Z.of_nat 2 ^ Z.of_nat 40)%Z. rewrite <- pow_IZR.
      simpl (IZR (Z.of_nat 2)). field. apply not_0_IZR. vm_compute. discriminate. }
  eapply Rlt_le_trans; [|apply H].
  - apply ratio_lt; vm_compute; reflexivity.
  - rewrite plus_IZR, mult_IZR.
    change (2 ^ 100)%Z with (2 ^ 89 * 2 ^ 11)%Z. rewrite mult_IZR.
    pose proof (exp_ineq1_le (IZR eta_M / IZR (2 ^ 89))) as Hexp.
    eapply Rle_trans; [|exact Hexp]. apply Req_le. field.
    split; apply not_0_IZR; vm_compute; discriminate.
Qed.

Lemma ratio_gt (num den U S : Z) :
  (0 < den)%Z -> (0 < S)%Z -> (den * U < num * S)%Z ->
  IZR U / IZR S < IZR num / IZR den.
Proof.
  intros Hd HS H. apply IZR_lt in Hd, HS, H. rewrite !mult_IZR in H.
  apply Rmult_lt_reg_r with (IZR den * IZR S); [nra|]. field_simplify; lra.
Qed.

Lemma exp_eta_upper : exp (IZR eta_M / IZR (2 ^ 49)) < 250844 / 10.
Proof.
  pose proof (upper_iter 100 40 upper_start (IZR eta_M / IZR (2 ^ 89)) ltac:(lia)) as H.
  replace (2 ^ 40 * (IZR eta_M / IZR (2 ^ 89))) with (IZR eta_M / IZR (2 ^ 49)) in H.
  2:{ change (2 ^ 89)%Z with (2 ^ 49 * 2 ^ 40)%Z. rewrite mult_IZR.
      change (2 ^ 40)%Z with (Z.of_nat 2 ^ Z.of_nat 40)%Z. rewrite <- pow_IZR.
      simpl (IZR (Z.of_nat 2)). field. apply not_0_IZR. vm_compute. discriminate. }
  eapply Rle_lt_trans; [apply H|].
  - set (t := IZR eta_M / IZR (2 ^ 89)).
    assert (Ht : t < 1).
    { unfold t. apply Rmult_lt_reg_r with (IZR (2 ^ 89)); [apply IZR_lt; reflexivity|].
      unfold Rdiv. rewrite Rmult_assoc, Rinv_l, Rmult_1_r, Rmult_1_l
        by (apply not_0_IZR; vm_compute; discriminate).
      apply IZR_lt. reflexivity. }
    eapply Rle_trans; [apply exp_upper, Ht|].
    assert (Hd : 0 < IZR (2 ^ 100 - eta_M * 2 ^ 11)) by (apply IZR_lt; reflexivity).
    assert (E : 1 - t = IZR (2 ^ 100 - eta_M * 2 ^ 11) / IZR (2 ^ 100)).
    { unfold t. rewrite minus_IZR, mult_IZR.
      change (2 ^ 100)%Z with (2 ^ 89 * 2 ^ 11)%Z. rewrite mult_IZR. field.
      split; apply not_0_IZR; vm_compute; discriminate. }
    rewrite E.
    assert (Hc : IZR (2 ^ 100) * IZR (2 ^ 100)
                 <= IZR upper_start * IZR (2 ^ 100 - eta_M * 2 ^ 11)).
    { rewrite <- !mult_IZR. apply IZR_le. vm_compute. discriminate. }
    assert (HS : 0 < IZR (2 ^ 100)) by (apply IZR_lt; reflexivity).
    apply Rmult_le_reg_r with (IZR (2 ^ 100 - eta_M * 2 ^ 11) * IZR (2 ^ 100)); [nra|].
    field_simplify; [|lra|lra]. nra.
  - apply ratio_gt; vm_compute; reflexivity.
Qed.

End ExpBound.

(** *** The values on the scenario *)

Lemma scenario_eta_SF :
  Prim2SF (eta scenario_coefs scenario_features)
  = S754_finite false 5702683028157890 (-49).
Proof. vm_compute. reflexivity. Qed.

Lemma scenario_eta_F2R :
  F2R (eta scenario_coefs scenario_features)
  = (IZR eta_M / IZR (2 ^ 49))%R.
Proof.
  unfold F2R. rewrite scenario_eta_SF. unfold eta_M.
  change (powerRZ 2 (-49)) with (/ (2 ^ 49))%R.
  change (2 ^ 49)%Z with (Z.of_nat 2 ^ Z.of_nat 49)%Z. rewrite <- pow_IZR.
  change (IZR (Z.of_nat 2)) with 2%R. unfold Rdiv. cbv iota.
  rewrite Rmult_1_l. reflexivity.
Qed.

Lemma rate_F2R : F2R USD_PER_EUR = (IZR 4863887597560136 / IZR (2 ^ 52))%R.
Proof.
  unfold F2R.
  replace (Prim2SF USD_PER_EUR) with (S754_finite false 4863887597560136 (-52))
    by (vm_compute; reflexivity).
  change (powerRZ 2 (-52)) with (/ (2 ^ 52))%R.
  change (2 ^ 52)%Z with (Z.of_nat 2 ^ Z.of_nat 52)%Z. rewrite <- pow_IZR.
  change (IZR (Z.of_nat 2)) with 2%R. unfold Rdiv. cbv iota.
  rewrite Rmult_1_l. reflexivity.
Qed.

Lemma scenario_exp_bounds :
  (250843 / 10 < exp (F2R (eta scenario_coefs scenario_features)) < 250844 / 10)%R.
Proof.
  rewrite scenario_eta_F2R. split; [apply ExpBound.exp_eta_lower | apply ExpBound.exp_eta_upper].
Qed.

Lemma scenario_usd_bounds :
  (27091 < F2R USD_PER_EUR * exp (F2R (eta scenario_coefs scenario_features)) < 270912 / 10)%R.
Proof.
  pose proof scenario_exp_bounds as [Hl Hu]. rewrite rate_F2R.
  assert (Hr : (108 / 100 <= IZR 4863887597560136 / IZR (2 ^ 52) <= 108000001 / 100000000)%R).
  { change (2 ^ 52)%Z with 4503599627370496%Z. lra. }
  nra.
Qed.

(** A value in the binade of [2 ^ 14] has exponent -38. *)
Lemma F2R_binade14 y :
  (16384 <= F2R y < 32768)%R ->
  exists m, Prim2SF y = S754_finite false m (-38)
            /\ (2 ^ 52 <= Zpos m < 2 ^ 53)%Z
            /\ F2R y = (IZR (Zpos m) / IZR (2 ^ 38))%R.
Proof.
  unfold F2R. pose proof (Prim2SF_valid y) as Hv.
  destruct (Prim2SF y) as [s|s| |s m e]; try (intros [H1 H2]; lra).
  cbn [valid_binary] in Hv. apply F64.bounded_inv in Hv as [Hc He].
  pose proof (F64.digits2_bounds m) as [Hdl Hdu].
  set (d := Zpos (digits2_pos m)) in *.
  assert (Hd : (1 <= d)%Z) by (unfold d; lia).
  assert (HP : (0 < powerRZ 2 e)%R) by (apply powerRZ_lt; lra).
  assert (Hm : (0 < IZR (Zpos m))%R) by (apply IZR_lt; lia).
  apply IZR_le in Hdl. apply IZR_lt in Hdu.
  rewrite IZR_pow2 in Hdl, Hdu by lia.
  destruct s; intros [H1 H2]; [nra|].
  rewrite Rmult_1_l in H1, H2.
  assert (Hlo : (powerRZ 2 (d - 1 + e) <= IZR (Zpos m) * powerRZ 2 e)%R).
  { rewrite powerRZ_add by lra. apply Rmult_le_compat_r; lra. }
  assert (Hhi : (IZR (Zpos m) * powerRZ 2 e < powerRZ 2 (d + e))%R).
  { rewrite powerRZ_add by lra. apply Rmult_lt_compat_r; lra. }
  assert (E1 : (d - 1 + e < 15)%Z).
  { apply powerRZ_lt_inv. eapply Rle_lt_trans; [exact Hlo|].
    eapply Rlt_le_trans; [exact H2|]. simpl. lra. }
  assert (E2 : (14 < d + e)%Z).
  { apply powerRZ_lt_inv. eapply Rle_lt_trans; [|exact Hhi].
    eapply Rle_trans; [|exact H1]. simpl. lra. }
  assert (Ee : e = (-38)%Z).
  { revert Hc. replace (d + e)%Z with 15%Z by lia. unfold fexp, SpecFloat.emin, emax, prec. lia. }
  subst e. exists m. split; [reflexivity|]. split.
  - assert (d = 53%Z) by lia.
    pose proof (F64.digits2_bounds m) as [Hdl' Hdu']. fold d in Hdl', Hdu'.
    replace d with 53%Z in Hdl', Hdu'. change (53 - 1)%Z with 52%Z in Hdl'. lia.
  - rewrite Rmult_1_l. change (powerRZ 2 (-38)) with (/ (2 ^ 38))%R.
    change (2 ^ 38)%Z with (Z.of_nat 2 ^ Z.of_nat 38)%Z. rewrite <- pow_IZR.
    reflexivity.
Qed.

(** The rate as a binary64 value. *)
Lemma rate_SF : Prim2SF USD_PER_EUR = S754_finite false rate_M (-52).
Proof. vm_compute. reflexivity. Qed.

(** The product of a value of that binade, below 30000, with the rate: the
    exact product is cut at 38 fractional bits and rounded. *)
Lemma mul_rate_SF y m :
  Prim2SF y = S754_finite false m (-38) ->
  (2 ^ 52 <= Zpos m <= 30000 * 2 ^ 38)%Z ->
  exists r, Prim2SF (y * USD_PER_EUR) = S754_finite false r (-38)
            /\ (Zpos m * Zpos rate_M / 2 ^ 52 <= Zpos r
                <= Zpos m * Zpos rate_M / 2 ^ 52 + 1)%Z.
Proof.
  intros Hy Hm. rewrite mul_spec, Hy, rate_SF. unfold SF64mul, SFmul. cbn [xorb].
  rewrite <- Pos2Z.inj_mul.
  set (M := (m * rate_M)%positive).
  assert (HM : (2 ^ 104 <= Zpos M < 2 ^ 105 - 2 ^ 52)%Z).
  { unfold M. rewrite Pos2Z.inj_mul. unfold rate_M. lia. }
  assert (HdM : Zpos (digits2_pos M) = 105%Z) by (apply F64.digits2_unique; lia).
  unfold binary_round_aux. unfold shr_fexp at 1. cbn [Zdigits2]. rewrite HdM.
  change (fexp prec emax (105 + (-38 + -52)) - (-38 + -52))%Z with 52%Z.
  unfold shr at 1. cbn [shr_record_of_loc].
  pose proof (F64.shr_m_iter 52 {| shr_m := Zpos M; shr_r := false; shr_s := false |}
                ltac:(cbn [shr_m]; lia)) as Hq.
  cbn [shr_m] in Hq.
  destruct (SpecFloat.iter_pos shr_1 52 {| shr_m := Zpos M; shr_r := false; shr_s := false |})
    as [q rb sb].
  cbn [shr_m] in Hq |- *.
  set (l := loc_of_shr_record {| shr_m := q; shr_r := rb; shr_s := sb |}).
  pose proof (F64.round_nearest_even_range q l) as Hr.
  assert (Hqb : (2 ^ 52 <= q /\ q + 1 < 2 ^ 53)%Z).
  { rewrite Hq. split.
    - apply Z.div_le_lower_bound; lia.
    - assert (Zpos M / 2 ^ 52 < 2 ^ 53 - 1)%Z; [|lia].
      apply Z.div_lt_upper_bound; lia. }
  destruct (round_nearest_even q l) as [|r|r]; try lia.
  exists r. split; [|rewrite <- Hq; lia].
  assert (Hdr : Zpos (digits2_pos r) = 53%Z) by (apply F64.digits2_unique; lia).
  unfold shr_fexp. cbn [Zdigits2 shr_record_of_loc]. rewrite Hdr.
  reflexivity.
Qed.

Lemma mul_rate_F2R y :
  (25000 <= F2R y <= 25200)%R ->
  (Rabs (F2R (y * USD_PER_EUR) - F2R y * F2R USD_PER_EUR) <= 1 / 10 ^ 11)%R.
Proof.
  intros [Hl Hu].
  destruct (F2R_binade14 y ltac:(lra)) as (m & Hy & Hm & Ey).
  assert (Hm' : (Zpos m <= 30000 * 2 ^ 38)%Z).
  { apply le_IZR. rewrite Ey in Hu. rewrite mult_IZR.
    assert (0 < IZR (2 ^ 38))%R by (apply IZR_lt; reflexivity).
    apply Rmult_le_reg_r with (/ IZR (2 ^ 38))%R; [apply Rinv_0_lt_compat; assumption|].
    rewrite Rmult_assoc, Rinv_r by lra. unfold Rdiv in Hu. lra. }
  destruct (mul_rate_SF y m Hy ltac:(lia)) as (r & Hr & Hq).
  assert (Er : F2R (y * USD_PER_EUR) = (IZR (Zpos r) / IZR (2 ^ 38))%R).
  { unfold F2R. rewrite Hr. rewrite Rmult_1_l. change (powerRZ 2 (-38)) with (/ (2 ^ 38))%R.
    change (2 ^ 38)%Z with (Z.of_nat 2 ^ Z.of_nat 38)%Z. rewrite <- pow_IZR. reflexivity. }
  rewrite Er, Ey, rate_F2R.
  set (q := (Zpos m * Zpos rate_M / 2 ^ 52)%Z) in *.
  assert (Hq1 : (2 ^ 52 * q <= Zpos m * Zpos rate_M)%Z)
    by (apply Z.mul_div_le; lia).
  assert (Hq2 : (Zpos m * Zpos rate_M < 2 ^ 52 * Z.succ q)%Z)
    by (apply Z.mul_succ_div_gt; lia).
  destruct Hq as [Hq3 Hq4].
  apply IZR_le in Hq1, Hq3, Hq4. apply IZR_lt in Hq2.
  rewrite !mult_IZR in Hq1, Hq2. rewrite succ_IZR in Hq2. rewrite plus_IZR in Hq4.
  fold rate_M.
  change (2 ^ 52)%Z with 4503599627370496%Z in *.
  change (2 ^ 38)%Z with 274877906944%Z in *.
  set (a := IZR (Zpos m)) in *. set (c := IZR (Zpos rate_M)) in *.
  set (x := IZR (Zpos r)) in *. set (z := IZR q) in *.
  apply Rabs_le.
  replace (x / 274877906944 - a / 274877906944 * (c / 4503599627370496))%R
    with ((4503599627370496 * x - a * c) / (274877906944 * 4503599627370496))%R by (field; lra).
  split.
  - apply Rmult_le_reg_r with (274877906944 * 4503599627370496)%R; [lra|].
    unfold Rdiv. rewrite Rmult_assoc, Rinv_l by lra. lra.
  - apply Rmult_le_reg_r with (274877906944 * 4503599627370496)%R; [lra|].
    unfold Rdiv. rewrite Rmult_assoc, Rinv_l by lra. lra.
Qed.

(** On a host that is accurate to a tenth at the scenario's [eta]: the value
    of [Math.exp], and the value [predict] returns. *)
Lemma scenario_on_accurate_host `{Runtime} :
  accurate_exp (1 / 10) (eta scenario_coefs scenario_features) ->
  (250842 / 10 < F2R (Math_exp (eta scenario_coefs scenario_features)) < 250845 / 10)%R
  /\ (270909 / 10 < F2R (predict true 1.08 scenario_coefs scenario_features)
      < 270913 / 10)%R
  /\ (Rabs (F2R (predict true 1.08 scenario_coefs scenario_features)
            - F2R USD_PER_EUR * exp (F2R (eta scenario_coefs scenario_features)))
      <= 11 / 100)%R.
Proof.
  intros [_ Hacc]. pose proof scenario_exp_bounds as [Hl Hu].
  set (y := Math_exp (eta scenario_coefs scenario_features)) in *.
  set (E := exp (F2R (eta scenario_coefs scenario_features))) in *.
  apply Rabs_bound in Hacc.
  assert (Hy : (250842 / 10 < F2R y < 250845 / 10)%R) by lra.
  split; [exact Hy|].
  pose proof (mul_rate_F2R y ltac:(lra)) as Hm. apply Rabs_bound in Hm.
  change (predict true 1.08 scenario_coefs scenario_features) with (y * USD_PER_EUR).
  assert (Hr : (108 / 100 <= F2R USD_PER_EUR <= 108000001 / 100000000)%R).
  { rewrite rate_F2R. change (2 ^ 52)%Z with 4503599627370496%Z. lra. }
  split; [nra|]. apply Rabs_le. nra.
Qed.

(** The reference host is accurate on the scenario. *)
Lemma scenario_exp_on_reference_host :
  Prim2SF (Ref.Math_exp (eta scenario_coefs scenario_features))
  = S754_finite false 6895137591938813 (-38).
Proof. vm_compute. reflexivity. Qed.

Lemma reference_host_accurate :
  accurate_exp (H := Ref.runtime) (1 / 10) (eta scenario_coefs scenario_features).
Proof.
  split; [vm_compute; reflexivity|].
  pose proof scenario_exp_bounds as [Hl Hu].
  change (Math_exp (eta scenario_coefs scenario_features))
    with (Ref.Math_exp (eta scenario_coefs scenario_features)).
  unfold F2R at 1. rewrite scenario_exp_on_reference_host.
  change (powerRZ 2 (-38)) with (/ (2 ^ 38))%R.
  apply Rabs_le. lra.
Qed.

(** C4, as stated, fails: on the scenario the exponential of [eta] is more
    than 95 above 24989 and 1.08 times it more than 103 above 26988; on no
    host whose [Math.exp] is within a tenth of the exponential at that
    [eta] is the euro wage 24989 or the prediction 26988 to the nearest
    unit; the reference host, which is one of them, returns
    27091.113585971176. *)
Lemma scenario_wage_is_not_24989 :
  ~ rounds_to (exp (F2R (eta scenario_coefs scenario_features))) 24989
  /\ ~ rounds_to
         (F2R USD_PER_EUR * exp (F2R (eta scenario_coefs scenario_features))) 26988
  /\ (exp (F2R (eta scenario_coefs scenario_features)) - 24989 > 95)%R
  /\ (F2R USD_PER_EUR * exp (F2R (eta scenario_coefs scenario_features)) - 26988 > 103)%R
  /\ (forall H : Runtime,
        accurate_exp (1 / 10) (eta scenario_coefs scenario_features) ->
        ~ rounds_to (F2R (Math_exp (eta scenario_coefs scenario_features))) 24989
        /\ ~ rounds_to (F2R (predict true 1.08 scenario_coefs scenario_features)) 26988)
  /\ accurate_exp (H := Ref.runtime) (1 / 10) (eta scenario_coefs scenario_features)
  /\ predict (H := Ref.runtime) true 1.08 scenario_coefs scenario_features
     = 27091.113585971176.
Proof.
  pose proof scenario_exp_bounds as [Hl Hu].
  pose proof scenario_usd_bounds as [Hl' Hu'].
  unfold rounds_to.
  split; [|split; [|split; [|split; [|split; [|split]]]]].
  - intros H. apply Rabs_bound in H. lra.
  - intros H. apply Rabs_bound in H. lra.
  - lra.
  - lra.
  - intros H Hacc. destruct (scenario_on_accurate_host Hacc) as (He & Hp & _).
    split; intros Hr; apply Rabs_bound in Hr; lra.
  - exact reference_host_accurate.
  - vm_compute. reflexivity.
Qed.

(** C4 (amended): on the scenario the program computes
    [eta = 10.129999999999999], the binary64 value next below 10.13, and
    returns [Math.exp(eta) * 1.08].  On every host whose [Math.exp] is
    within a tenth of the exponential at that [eta], the euro wage
    [Math.exp(eta)] is 25084 to the nearest unit (not 24989) and the value
    [predict] returns, which is the one [predictedUSD] displays, is 27091 to
    the nearest unit (not 26988), within 0.11 of 1.08 times the
    exponential. *)
Theorem scenario_prediction `{Runtime} :
  eta scenario_coefs scenario_features = 10.129999999999999
  /\ next_up (eta scenario_coefs scenario_features) = 10.13
  /\ (Rabs (F2R (eta scenario_coefs scenario_features) - 1013 / 100) < 1 / 10 ^ 14)%R
  /\ predict true 1.08 scenario_coefs scenario_features
     = Math_exp 10.129999999999999 * 1.08
  /\ predictedUSD scenario_coefs initial_state
     = predict true 1.08 scenario_coefs scenario_features
  /\ rounds_to (exp (F2R (eta scenario_coefs scenario_features))) 25084
  /\ (accurate_exp (1 / 10) (eta scenario_coefs scenario_features) ->
      rounds_to (F2R (Math_exp (eta scenario_coefs scenario_features))) 25084
      /\ rounds_to (F2R (predict true 1.08 scenario_coefs scenario_features)) 27091
      /\ rounds_to (F2R (predictedUSD scenario_coefs initial_state)) 27091
      /\ (Rabs (F2R (predict true 1.08 scenario_coefs scenario_features)
                - F2R USD_PER_EUR * exp (F2R (eta scenario_coefs scenario_features)))
          <= 11 / 100)%R).
Proof.
  assert (E : eta scenario_coefs scenario_features = 10.129999999999999)
    by (vm_compute; reflexivity).
  pose proof scenario_exp_bounds as [Hl Hu].
  assert (Hs : predictedUSD scenario_coefs initial_state
               = predict true 1.08 scenario_coefs scenario_features) by reflexivity.
  split; [exact E|]. split; [vm_compute; reflexivity|].
  split; [|split; [|split; [exact Hs|split]]].
  - rewrite scenario_eta_F2R. unfold eta_M.
    change (2 ^ 49)%Z with 562949953421312%Z.
    apply Rabs_def1; lra.
  - unfold predict. rewrite E. reflexivity.
  - unfold rounds_to. apply Rabs_le. lra.
  - intros Hacc. destruct (scenario_on_accurate_host Hacc) as (He & Hp & Hd).
    rewrite Hs. unfold rounds_to.
    split; [|split; [|split; [|exact Hd]]]; apply Rabs_le; lra.
Qed.

(** The reference host on the scenario: it is accurate there, and the
    program returns 27091 to the nearest unit. *)
Lemma scenario_prediction_witness :
  accurate_exp (H := Ref.runtime) (1 / 10) (eta scenario_coefs scenario_features)
  /\ rounds_to
       (F2R (Math_exp (Runtime := Ref.runtime) (eta scenario_coefs scenario_features)))
       25084
  /\ rounds_to (F2R (predict (H := Ref.runtime) true 1.08 scenario_coefs scenario_features))
       27091.
Proof.
  split; [exact reference_host_accurate|].
  destruct (scenario_prediction (H := Ref.runtime)) as (_ & _ & _ & _ & _ & _ & Hacc).
  destruct (Hacc reference_host_accurate) as (He & Hp & _).
  split; assumption.
Defined.

(** On the reference host the scenario displays as 27,091 dollars. *)
Lemma scenario_on_reference_host :
  predictedUSD (H := Ref.runtime) scenario_coefs initial_state = 27091.113585971176
  /\ fmtUSD (H := Ref.runtime) (predictedUSD (H := Ref.runtime) scenario_coefs initial_state)
     = "$27,091"%string.
Proof. split; vm_compute; reflexivity. Qed.

(** * Further properties of the code *)

(** ** The category deriver *)

Lemma append_assoc (a b c : string) :
  ((a +:+ b) +:+ c = a +:+ (b +:+ c))%string.
Proof.
  induction a as [|x a IH]; [reflexivity|].
  change (String x ((a +:+ b) +:+ c) = String x (a +:+ (b +:+ c)))%string.
  rewrite IH. reflexivity.
Qed.

Lemma contains_extend pre s post sub :
  contains s sub -> contains (pre +:+ s +:+ post) sub.
Proof.
  intros (a & b & ->). exists (pre +:+ a)%string, (b +:+ post)%string.
  rewrite !append_assoc. reflexivity.
Qed.

Lemma occurs_extend pre s post sub :
  (indexof s sub >=? 0)%Z = true ->
  (indexof (pre +:+ s +:+ post) sub >=? 0)%Z = true.
Proof. rewrite !indexof_contains. apply contains_extend. Qed.

Lemma deriveGroup_cases (s : string) :
  (contains s "GK" /\ deriveGroup s = "Goalkeeper"%string)
  \/ (~ contains s "GK" /\ Exists (contains s) defender_codes
      /\ deriveGroup s = "Defender"%string)
  \/ (~ contains s "GK" /\ ~ Exists (contains s) defender_codes
      /\ Exists (contains s) midfielder_codes /\ deriveGroup s = "Midfielder"%string)
  \/ (~ contains s "GK" /\ ~ Exists (contains s) defender_codes
      /\ ~ Exists (contains s) midfielder_codes /\ deriveGroup s = "Forward"%string).
Proof.
  unfold deriveGroup.
  destruct (indexof s "GK" >=? 0)%Z eqn:Egk.
  { left. split; [apply indexof_contains, Egk | reflexivity]. }
  apply indexof_not_contains in Egk. right.
  match goal with
  | |- context [if ?b then "Defender"%string else _] => destruct b eqn:Edef
  end.
  { left. split; [exact Egk|]. split; [apply defender_rule, Edef | reflexivity]. }
  assert (Hdef : ~ Exists (contains s) defender_codes).
  { rewrite <- defender_rule, Edef. discriminate. }
  right.
  match goal with
  | |- context [if ?b then "Midfielder"%string else _] => destruct b eqn:Emid
  end.
  { left. repeat split; try assumption. apply midfielder_rule, Emid. }
  right. repeat split; try assumption.
  rewrite <- midfielder_rule, Emid. discriminate.
Qed.

Lemma Exists_contains_extend pre s post codes :
  Exists (contains s) codes -> Exists (contains (pre +:+ s +:+ post)) codes.
Proof.
  intros H. induction H as [c codes Hc|c codes _ IH].
  - apply Exists_cons_hd, contains_extend, Hc.
  - apply Exists_cons_tl, IH.
Qed.

(** X1: the label is always one of the four groups, each of the four is the
    label of some text, and the label is never the sentinel ["All"] of the
    filter: every label is offered by the select box. *)
Theorem deriveGroup_labels :
  (forall s, In (deriveGroup s) group_names)
  /\ (forall g, In g group_names -> exists s, deriveGroup s = g)
  /\ (forall s, In (deriveGroup s) filter_options /\ deriveGroup s <> "All"%string).
Proof.
  split; [|split].
  - intros s. destruct (deriveGroup_range s) as [H Hall].
    unfold filter_options in H. unfold group_names. simpl in *.
    intuition congruence.
  - intros g Hg. unfold group_names in Hg. simpl in Hg.
    destruct Hg as [<-|[<-|[<-|[<-|[]]]]].
    + exists "GK"%string. reflexivity.
    + exists "CB"%string. reflexivity.
    + exists "CM"%string. reflexivity.
    + exists "ST"%string. reflexivity.
  - apply deriveGroup_range.
Qed.

(** X2: text around a positions text can only move its label to an earlier
    rule: the label of [pre ++ s ++ post] is at least as high in the order
    Goalkeeper, Defender, Midfielder, Forward as the label of [s]. *)
Theorem deriveGroup_extension (pre s post : string) :
  (precedence (deriveGroup s) <= precedence (deriveGroup (pre +:+ s +:+ post)))%nat.
Proof.
  destruct (deriveGroup_cases s) as [[Hgk ->]|[(Hgk & Hd & ->)|[(Hgk & Hd & Hm & ->)|(_ & _ & _ & ->)]]];
    destruct (deriveGroup_cases (pre +:+ s +:+ post))
      as [[Hgk' ->]|[(Hgk' & Hd' & ->)|[(Hgk' & Hd' & Hm' & ->)|(Hgk' & Hd' & Hm' & ->)]]];
    try (cbn; lia).
  - exfalso. apply Hgk'. apply contains_extend, Hgk.
  - exfalso. apply Hgk'. apply contains_extend, Hgk.
  - exfalso. apply Hgk'. apply contains_extend, Hgk.
  - exfalso. apply Hd'. apply Exists_contains_extend, Hd.
  - exfalso. apply Hd'. apply Exists_contains_extend, Hd.
  - exfalso. apply Hm'. apply Exists_contains_extend, Hm.
Qed.

(** ** The transform pipeline *)

Lemma before_filter_map dataset : before_filter dataset = map derived dataset.
Proof.
  unfold before_filter, run_transforms. simpl. rewrite List.map_map. reflexivity.
Qed.

Lemma filter_map_swap {A B} (f : B -> bool) (g : A -> B) (l : list A) :
  List.filter f (map g l) = map g (List.filter (fun x => f (g x)) l).
Proof.
  induction l as [|a l IH]; simpl; [reflexivity|].
  destruct (f (g a)); simpl; rewrite IH; reflexivity.
Qed.

Lemma filterExpr_derived p d :
  p <> "All"%string -> filterExpr p (derived d) = in_group p d.
Proof.
  intros Hp. unfold filterExpr.
  destruct (String.eqb p "All") eqn:E; [apply String.eqb_eq in E; contradiction|].
  reflexivity.
Qed.

Lemma after_filter_rows p dataset :
  after_filter p dataset
  = map derived (List.filter (fun d => filterExpr p (derived d)) dataset).
Proof. rewrite after_filter_unfold, before_filter_map. apply filter_map_swap. Qed.

Lemma filter_ext_eq {A} (f g : A -> bool) (l : list A) :
  (forall a, f a = g a) -> List.filter f l = List.filter g l.
Proof.
  intros H. induction l as [|a l IH]; simpl; [reflexivity|].
  rewrite H, IH. reflexivity.
Qed.

Lemma after_filter_group p dataset :
  p <> "All"%string ->
  after_filter p dataset = map derived (List.filter (in_group p) dataset).
Proof.
  intros Hp. rewrite after_filter_rows. f_equal.
  apply filter_ext_eq. intros d. apply filterExpr_derived, Hp.
Qed.

(** X3: the stages are idempotent and the two [calculate] stages commute:
    deriving or rescaling rows that already carry the field gives the same
    rows, and running a histogram's whole transform on its own output
    changes nothing. *)
Theorem transform_idempotent (posFilter : string) (rows : list Datum) :
  apply_transform (CalculateGroup calcGroupExpr)
    (apply_transform (CalculateGroup calcGroupExpr) rows)
  = apply_transform (CalculateGroup calcGroupExpr) rows
  /\ apply_transform (CalculateWageUsd wageUsdExpr)
       (apply_transform (CalculateWageUsd wageUsdExpr) rows)
     = apply_transform (CalculateWageUsd wageUsdExpr) rows
  /\ apply_transform (CalculateWageUsd wageUsdExpr)
       (apply_transform (CalculateGroup calcGroupExpr) rows)
     = apply_transform (CalculateGroup calcGroupExpr)
         (apply_transform (CalculateWageUsd wageUsdExpr) rows)
  /\ after_filter posFilter (after_filter posFilter rows) = after_filter posFilter rows.
Proof.
  repeat split; try (simpl; rewrite !List.map_map; reflexivity).
  rewrite (after_filter_rows posFilter (after_filter posFilter rows)).
  rewrite (after_filter_rows posFilter rows).
  rewrite filter_map_swap, List.map_map.
  change (fun x => derived (derived x)) with derived.
  change (fun x => filterExpr posFilter (derived (derived x)))
    with (fun x => filterExpr posFilter (derived x)).
  f_equal. induction rows as [|d rows IH]; simpl; [reflexivity|].
  destruct (filterExpr posFilter (derived d)) eqn:E; simpl; [rewrite E|]; rewrite IH;
    reflexivity.
Qed.

(** X4: the rows a histogram aggregates are the rows of the dataset whose
    positions derive to the selected group (all of them under ["All"]), in
    the dataset's order, each with its raw fields untouched and with
    [group] and [wage_usd] set from them, whatever the dataset held in
    those two fields. *)
Theorem filter_selects_by_derived_group (dataset : list Datum) :
  (forall p : string, p <> "All"%string ->
     after_filter p dataset = map derived (List.filter (in_group p) dataset))
  /\ after_filter "All" dataset = map derived dataset
  /\ (forall p d, In d (after_filter p dataset) ->
        group d = Some (deriveGroup (positions d))
        /\ wage_usd d = Some (USD_PER_EUR * wage_euro d)
        /\ exists d0, In d0 dataset /\ positions d = positions d0
                      /\ wage_euro d = wage_euro d0).
Proof.
  split; [|split].
  - intros p Hp. apply after_filter_group, Hp.
  - rewrite after_filter_rows. f_equal. apply filter_true.
  - intros p d Hd. rewrite after_filter_rows in Hd.
    apply in_map_iff in Hd as (d0 & <- & Hd0). apply filter_In in Hd0 as [Hd0 _].
    split; [reflexivity|]. split; [reflexivity|]. exists d0. auto.
Qed.

Lemma length_filter_cons {A} (f : A -> bool) (a : A) (l : list A) :
  length (List.filter f (a :: l))
  = ((if f a then 1 else 0) + length (List.filter f l))%nat.
Proof. simpl. destruct (f a); reflexivity. Qed.

Lemma in_group_partition (dataset : list Datum) :
  (length (List.filter (in_group "Goalkeeper") dataset)
   + length (List.filter (in_group "Defender") dataset)
   + length (List.filter (in_group "Midfielder") dataset)
   + length (List.filter (in_group "Forward") dataset))%nat
  = length dataset.
Proof.
  induction dataset as [|d dataset IH]; [reflexivity|].
  rewrite !length_filter_cons. cbn [length].
  set (n1 := length (List.filter (in_group "Goalkeeper") dataset)) in *.
  set (n2 := length (List.filter (in_group "Defender") dataset)) in *.
  set (n3 := length (List.filter (in_group "Midfielder") dataset)) in *.
  set (n4 := length (List.filter (in_group "Forward") dataset)) in *.
  unfold in_group.
  destruct (deriveGroup_cases (positions d))
    as [[_ ->]|[(_ & _ & ->)|[(_ & _ & _ & ->)|(_ & _ & _ & ->)]]];
    repeat match goal with
           | |- context [String.eqb ?a ?b] =>
               let v := eval vm_compute in (String.eqb a b) in
               change (String.eqb a b) with v
           end; cbv iota; lia.
Qed.

(** X5: the four groups of the select box split the dataset: the numbers of
    records shown under Goalkeeper, Defender, Midfielder and Forward add up
    to the number of records, which is the number shown under ["All"]. *)
Theorem groups_partition_dataset (dataset : list Datum) :
  (length (after_filter "Goalkeeper" dataset) + length (after_filter "Defender" dataset)
   + length (after_filter "Midfielder" dataset) + length (after_filter "Forward" dataset))%nat
  = length dataset
  /\ length (after_filter "All" dataset) = length dataset.
Proof.
  split.
  - rewrite !after_filter_group by discriminate. rewrite !length_map.
    apply in_group_partition.
  - rewrite after_filter_rows, length_map. f_equal. apply filter_true.
Qed.

(** ** The coefficient loader *)

Lemma fold_assign_lookup `{Runtime} (arr : list CoefRecord)
    (acc : gmap string float) (k : string) :
  k <> "__proto__"%string ->
  fold_left (fun m d => assign m (term d) (ToNumber (estimate d))) arr acc !! k
  = match last_estimate k arr with
    | Some v => Some (ToNumber v)
    | None => acc !! k
    end.
Proof.
  intros Hk. revert acc. induction arr as [|d arr IH]; intros acc; [reflexivity|].
  cbn [fold_left last_estimate]. rewrite IH.
  destruct (last_estimate k arr) as [v|]; [reflexivity|].
  destruct (String.eqb (term d) k) eqn:E.
  - apply String.eqb_eq in E. subst k. apply assign_same, Hk.
  - apply String.eqb_neq in E. apply assign_other, E.
Qed.

Lemma fold_assign_proto `{Runtime} (arr : list CoefRecord) (acc : gmap string float) :
  fold_left (fun m d => assign m (term d) (ToNumber (estimate d))) arr acc
    !! "__proto__"%string
  = acc !! "__proto__"%string.
Proof.
  revert acc. induction arr as [|d arr IH]; intros acc; [reflexivity|].
  cbn [fold_left]. rewrite IH. unfold assign.
  destruct (String.eqb (term d) "__proto__") eqn:E; [reflexivity|].
  apply String.eqb_neq in E. apply lookup_insert_ne, E.
Qed.

Lemma last_estimate_none (k : string) (arr : list CoefRecord) :
  (forall d, In d arr -> term d <> k) <-> last_estimate k arr = None.
Proof.
  induction arr as [|d arr IH]; cbn [last_estimate].
  - split; [reflexivity | intros _ d []].
  - split.
    + intros Hall.
      assert (Harr : last_estimate k arr = None).
      { apply IH. intros d' Hd'. apply Hall. right. exact Hd'. }
      rewrite Harr.
      destruct (String.eqb (term d) k) eqn:E; [|reflexivity].
      apply String.eqb_eq in E. exfalso. apply (Hall d); [left; reflexivity | exact E].
    + destruct (last_estimate k arr) as [v|] eqn:Harr; [discriminate|].
      destruct (String.eqb (term d) k) eqn:E; [discriminate|].
      intros _ d' [<-|Hd'].
      * apply String.eqb_neq, E.
      * apply (proj2 IH eq_refl d' Hd').
Qed.

Lemma last_estimate_some (k : string) (arr : list CoefRecord) (v : JS.value) :
  last_estimate k arr = Some v -> exists d, In d arr /\ term d = k /\ estimate d = v.
Proof.
  induction arr as [|d arr IH]; cbn [last_estimate]; [discriminate|].
  destruct (last_estimate k arr) as [v'|].
  - intros Hv. destruct (IH Hv) as (d' & Hd' & Ht & He). exists d'. split; [right|]; auto.
  - destruct (String.eqb (term d) k) eqn:E; [|discriminate].
    apply String.eqb_eq in E. intros [= <-]. exists d. split; [left|]; auto.
Qed.

Lemma last_estimate_unique (arr : list CoefRecord) (d : CoefRecord) :
  List.NoDup (map term arr) -> In d arr ->
  last_estimate (term d) arr = Some (estimate d).
Proof.
  induction arr as [|d0 arr IH]; intros Hnd Hd; [destruct Hd|].
  cbn [map] in Hnd. apply List.NoDup_cons_iff in Hnd as [Hd0 Hnd].
  cbn [last_estimate]. destruct Hd as [->|Hd].
  - assert (Hnone : last_estimate (term d) arr = None).
    { apply last_estimate_none. intros d' Hd' E. apply Hd0. rewrite <- E.
      apply in_map, Hd'. }
    rewrite Hnone, String.eqb_refl. reflexivity.
  - rewrite (IH Hnd Hd). reflexivity.
Qed.

(** X6: what the loaded map holds at a key is decided by the last record
    with that term: the map holds its estimate as a Number, and holds
    nothing for a term that no record names; the predictor then reads such
    a term as 0.  (Nothing is ever stored at ["__proto__"].) *)
Theorem loader_last_record_wins `{Runtime} (arr : list CoefRecord) (k : string) :
  useCoefficients (Some arr) !! k
  = (if String.eqb k "__proto__" then None else ToNumber <$> last_estimate k arr)
  /\ ((forall d, In d arr -> term d <> k) ->
      useCoefficients (Some arr) !! k = None
      /\ coef (useCoefficients (Some arr)) k = 0)
  /\ (forall pre d post,
        arr = pre ++ d :: post -> term d = k -> k <> "__proto__"%string ->
        (forall d', In d' post -> term d' <> k) ->
        useCoefficients (Some arr) !! k = Some (ToNumber (estimate d))).
Proof.
  assert (E : useCoefficients (Some arr) !! k
              = (if String.eqb k "__proto__" then None
                 else ToNumber <$> last_estimate k arr)).
  { unfold useCoefficients, collect.
    destruct (String.eqb k "__proto__") eqn:Ek.
    - apply String.eqb_eq in Ek. subst k. rewrite fold_assign_proto. apply lookup_empty.
    - apply String.eqb_neq in Ek. rewrite (fold_assign_lookup arr ∅ k Ek).
      destruct (last_estimate k arr); [reflexivity | apply lookup_empty]. }
  split; [exact E|]. split.
  - intros Hall. apply last_estimate_none in Hall.
    assert (Hnone : useCoefficients (Some arr) !! k = None).
    { rewrite E, Hall. destruct (String.eqb k "__proto__"); reflexivity. }
    split; [exact Hnone | apply coef_absent, Hnone].
  - intros pre d post -> <- Hk Hpost.
    apply collect_last; [exact Hk|]. apply List.Forall_forall. exact Hpost.
Qed.

(** X7: when no two records share a term, the order of the records does
    not matter: a permutation of the resource loads the same map. *)
Theorem loader_order_irrelevant `{Runtime} (arr arr' : list CoefRecord) :
  Permutation arr arr' ->
  List.NoDup (map term arr) ->
  useCoefficients (Some arr) = useCoefficients (Some arr').
Proof.
  intros Hp Hnd.
  assert (Hnd' : List.NoDup (map term arr')).
  { eapply Permutation_NoDup; [|exact Hnd]. apply Permutation_map, Hp. }
  assert (El : forall k, last_estimate k arr = last_estimate k arr').
  { intros k. destruct (last_estimate k arr) as [v|] eqn:Ek.
    - apply last_estimate_some in Ek as (d & Hd & <- & <-).
      symmetry. apply last_estimate_unique; [exact Hnd'|].
      eapply Permutation_in; [exact Hp | exact Hd].
    - symmetry. apply last_estimate_none. intros d Hd.
      apply (proj2 (last_estimate_none k arr) Ek).
      eapply Permutation_in; [symmetry; exact Hp | exact Hd]. }
  apply map_eq. intros k. unfold useCoefficients, collect.
  destruct (String.eqb k "__proto__") eqn:Ek.
  - apply String.eqb_eq in Ek. subst k. rewrite !fold_assign_proto. reflexivity.
  - apply String.eqb_neq in Ek. rewrite !(fold_assign_lookup _ ∅ k Ek), El. reflexivity.
Qed.

(** Two records, swapped. *)
Lemma loader_order_irrelevant_witness :
  useCoefficients (H := Ref.runtime)
    (Some [ {| term := "Intercept"; estimate := VNum 6 |};
            {| term := "age"; estimate := VStr "-0.01" |} ])
  = useCoefficients (H := Ref.runtime)
      (Some [ {| term := "age"; estimate := VStr "-0.01" |};
              {| term := "Intercept"; estimate := VNum 6 |} ]).
Proof.
  apply (loader_order_irrelevant (H := Ref.runtime)).
  - apply perm_swap.
  - repeat constructor; simpl; intuition discriminate.
Defined.

(** ** The predictor and the display *)

Lemma eta_agree (coefs1 coefs2 : gmap string float) (f : FeatureVector) :
  (forall k, In k (read_keys f) -> or_zero (coefs1 !! k) = or_zero (coefs2 !! k)) ->
  eta coefs1 f = eta coefs2 f.
Proof.
  intros Hk. unfold eta.
  rewrite (Hk "Intercept"%string), (Hk "age"%string), (Hk "overall_rating"%string),
    (Hk ("position_group_" +:+ pg f)%string), (Hk ("preferred_foot_" +:+ foot f)%string);
    [reflexivity | | | | |]; unfold read_keys; simpl; tauto.
Qed.

(** X8: the prediction depends on the map only at the five keys it reads:
    storing or deleting an estimate at any other key (the coefficient of
    another position group, say) leaves [eta] and the prediction as they
    were. *)
Theorem predict_ignores_other_keys `{Runtime} (targetIsLog : bool) (currencyRate : float)
    (coefs : gmap string float) (f : FeatureVector) (k : string) (v : float) :
  ~ In k (read_keys f) ->
  eta (<[k := v]> coefs) f = eta coefs f
  /\ eta (delete k coefs) f = eta coefs f
  /\ predict targetIsLog currencyRate (<[k := v]> coefs) f
     = predict targetIsLog currencyRate coefs f
  /\ predict targetIsLog currencyRate (delete k coefs) f
     = predict targetIsLog currencyRate coefs f.
Proof.
  intros Hk.
  assert (Ei : eta (<[k := v]> coefs) f = eta coefs f).
  { apply eta_agree. intros k' Hk'. rewrite lookup_insert_ne; [reflexivity|].
    intros ->. contradiction. }
  assert (Ed : eta (delete k coefs) f = eta coefs f).
  { apply eta_agree. intros k' Hk'. rewrite lookup_delete_ne; [reflexivity|].
    intros ->. contradiction. }
  unfold predict. rewrite Ei, Ed. repeat split.
Qed.

(** A Defender coefficient does not move a Midfielder's prediction. *)
Lemma predict_ignores_other_keys_witness :
  eta (<["position_group_Defender"%string := 0.5]> scenario_coefs) scenario_features
  = eta scenario_coefs scenario_features
  /\ eta (delete "position_group_Defender"%string scenario_coefs) scenario_features
     = eta scenario_coefs scenario_features
  /\ predict (H := Ref.runtime) true 1.08
       (<["position_group_Defender"%string := 0.5]> scenario_coefs) scenario_features
     = predict (H := Ref.runtime) true 1.08 scenario_coefs scenario_features
  /\ predict (H := Ref.runtime) true 1.08
       (delete "position_group_Defender"%string scenario_coefs) scenario_features
     = predict (H := Ref.runtime) true 1.08 scenario_coefs scenario_features.
Proof.
  apply (predict_ignores_other_keys (H := Ref.runtime) true 1.08 scenario_coefs
           scenario_features "position_group_Defender" 0.5).
  simpl. intuition discriminate.
Defined.

(** X9: an estimate stored as a zero ([+0] or [-0]) or as [NaN] weighs
    exactly as an absent term does, the reference level of a factor:
    deleting it, or storing [0] in its place, leaves [eta] and the
    prediction as they were. *)
Theorem falsy_estimate_is_absent `{Runtime} (targetIsLog : bool) (currencyRate : float)
    (coefs : gmap string float) (f : FeatureVector) (t : string) (x : float) :
  coefs !! t = Some x ->
  ToBoolean x = false ->
  eta (delete t coefs) f = eta coefs f
  /\ eta (<[t := 0]> coefs) f = eta coefs f
  /\ predict targetIsLog currencyRate (delete t coefs) f
     = predict targetIsLog currencyRate coefs f.
Proof.
  intros Ht Hx.
  assert (E0 : or_zero (coefs !! t) = 0) by (rewrite Ht; simpl; rewrite Hx; reflexivity).
  assert (Ed : eta (delete t coefs) f = eta coefs f).
  { apply eta_agree. intros k _. destruct (decide (t = k)) as [<-|Hne].
    - rewrite lookup_delete_eq, E0. reflexivity.
    - rewrite lookup_delete_ne by exact Hne. reflexivity. }
  assert (Ei : eta (<[t := 0]> coefs) f = eta coefs f).
  { apply eta_agree. intros k _. destruct (decide (t = k)) as [<-|Hne].
    - rewrite lookup_insert_eq, E0. reflexivity.
    - rewrite lookup_insert_ne by exact Hne. reflexivity. }
  unfold predict. rewrite Ed. repeat split; assumption.
Qed.

(** A Midfielder term stored as [-0]. *)
Lemma falsy_estimate_is_absent_witness :
  let coefs := <["position_group_Midfielder"%string := neg_zero]> scenario_coefs in
  eta (delete "position_group_Midfielder"%string coefs) scenario_features
  = eta coefs scenario_features
  /\ eta (<["position_group_Midfielder"%string := 0]> coefs) scenario_features
     = eta coefs scenario_features
  /\ predict (H := Ref.runtime) true 1.08
       (delete "position_group_Midfielder"%string coefs) scenario_features
     = predict (H := Ref.runtime) true 1.08 coefs scenario_features.
Proof.
  apply (falsy_estimate_is_absent (H := Ref.runtime) true 1.08
           (<["position_group_Midfielder"%string := neg_zero]> scenario_coefs)
           scenario_features "position_group_Midfielder" neg_zero); reflexivity.
Defined.

Lemma mul_rate_not_finite (x : float) :
  is_finite x = false -> is_finite (x * USD_PER_EUR) = false.
Proof.
  intros Hx. apply F64.not_finite_cases in Hx as [->|[->| ->]]; reflexivity.
Qed.

(** X10: a prediction whose exponential is not finite ([Math.exp] has
    overflowed to [+Infinity], or returned [NaN]) is not finite either, and
    the component shows the marker ["—"] for it. *)
Theorem non_finite_exp_shows_marker `{Runtime} (coefs : gmap string float) (st : State) :
  is_finite (Math_exp (eta coefs (features st))) = false ->
  is_finite (predictedUSD coefs st) = false
  /\ predicted_text (App coefs st) = "—"%string.
Proof.
  intros Hx.
  assert (E : is_finite (predictedUSD coefs st) = false).
  { unfold predictedUSD, predict, TARGET_IS_LOG. apply mul_rate_not_finite, Hx. }
  split; [exact E|].
  cbn [predicted_text App]. unfold fmtUSD, JS.isFinite. rewrite E. reflexivity.
Qed.

(** An intercept of 1000 overflows the exponential. *)
Lemma non_finite_exp_shows_marker_witness :
  let coefs : gmap string float := {["Intercept"%string := 1000]} in
  is_finite (predictedUSD (H := Ref.runtime) coefs initial_state) = false
  /\ predicted_text (App (H := Ref.runtime) coefs initial_state) = "—"%string.
Proof.
  apply (non_finite_exp_shows_marker (H := Ref.runtime)
           {["Intercept"%string := 1000]} initial_state).
  vm_compute. reflexivity.
Defined.

Lemma mul_nan_r (x : float) : x * nan = nan.
Proof.
  apply Prim2SF_inj. rewrite mul_spec. change (Prim2SF nan) with S754_nan.
  unfold SF64mul. destruct (Prim2SF x); reflexivity.
Qed.

Lemma add_nan_r (x : float) : x + nan = nan.
Proof.
  apply Prim2SF_inj. rewrite add_spec. change (Prim2SF nan) with S754_nan.
  unfold SF64add. destruct (Prim2SF x); reflexivity.
Qed.

Lemma add_nan_l (x : float) : nan + x = nan.
Proof.
  apply Prim2SF_inj. rewrite add_spec. change (Prim2SF nan) with S754_nan.
  reflexivity.
Qed.

(** X11: when the age or the rating of the state does not convert to a
    number ([Number] gives [NaN]), [eta] is [NaN] whatever the
    coefficients; on a host whose [Math.exp(NaN)] is [NaN], as ECMA-262
    prescribes, the component shows the marker ["—"]. *)
Theorem non_numeric_input_shows_marker `{Runtime} (coefs : gmap string float) (st : State) :
  ToNumber (age_state st) = nan \/ ToNumber (rating_state st) = nan ->
  Math_exp nan = nan ->
  eta coefs (features st) = nan
  /\ predicted_text (App coefs st) = "—"%string.
Proof.
  intros Hin Hexp.
  assert (E : eta coefs (features st) = nan).
  { unfold eta. cbn [features age rating pg foot].
    destruct Hin as [-> | ->].
    - rewrite mul_nan_r, add_nan_r, !add_nan_l. reflexivity.
    - rewrite mul_nan_r, add_nan_r, !add_nan_l. reflexivity. }
  split; [exact E|].
  cbn [predicted_text App]. unfold predictedUSD, predict, TARGET_IS_LOG.
  rewrite E, Hexp. reflexivity.
Qed.

(** The age box holds ["abc"]. *)
Lemma non_numeric_input_shows_marker_witness :
  let st := {| posFilter := "All"; age_state := VStr "abc"; rating_state := VNum 85;
               foot_state := "Right"; pg_state := "Midfielder" |} in
  eta scenario_coefs (features (H := Ref.runtime) st) = nan
  /\ predicted_text (App (H := Ref.runtime) scenario_coefs st) = "—"%string.
Proof.
  apply (non_numeric_input_shows_marker (H := Ref.runtime) scenario_coefs
           {| posFilter := "All"; age_state := VStr "abc"; rating_state := VNum 85;
              foot_state := "Right"; pg_state := "Midfielder" |});
    [left; reflexivity | reflexivity].
Defined.

Lemma SFmul_comm (x y : spec_float) : SF64mul x y = SF64mul y x.
Proof.
  unfold SF64mul.
  destruct x as [sx|sx| |sx mx ex], y as [sy|sy| |sy my ey]; simpl;
    try reflexivity; try (rewrite xorb_comm; reflexivity).
  rewrite xorb_comm, Pos.mul_comm, Z.add_comm. reflexivity.
Qed.

Lemma mul_comm (x y : float) : x * y = y * x.
Proof. apply Prim2SF_inj. rewrite !mul_spec. apply SFmul_comm. Qed.

(** X12: the predictor and the charts convert euros to dollars alike: the
    prediction is, to the bit, the [wage_usd] the pipeline attaches to a
    record whose [wage_euro] is the predicted euro wage. *)
Theorem prediction_in_chart_currency `{Runtime} (coefs : gmap string float) (st : State)
    (d : Datum) :
  wage_euro d = Math_exp (eta coefs (features st)) ->
  wageUsdExpr d = predictedUSD coefs st
  /\ Forall (fun d' => wage_usd d' = Some (predictedUSD coefs st)) (before_filter [d]).
Proof.
  intros Hd.
  assert (E : wageUsdExpr d = predictedUSD coefs st).
  { unfold wageUsdExpr, predictedUSD, predict, TARGET_IS_LOG.
    rewrite Hd. apply mul_comm. }
  split; [exact E|]. rewrite before_filter_map. repeat constructor.
  cbn [wage_usd derived]. f_equal. exact E.
Qed.

(** A player paid the scenario's predicted euro wage. *)
Lemma prediction_in_chart_currency_witness :
  let d := {| positions := "CM";
              wage_euro := Ref.Math_exp (eta scenario_coefs scenario_features);
              group := None; wage_usd := None |} in
  wageUsdExpr d = predictedUSD (H := Ref.runtime) scenario_coefs initial_state
  /\ Forall (fun d' => wage_usd d'
                       = Some (predictedUSD (H := Ref.runtime) scenario_coefs initial_state))
       (before_filter [d]).
Proof.
  apply (prediction_in_chart_currency (H := Ref.runtime) scenario_coefs initial_state
           {| positions := "CM";
              wage_euro := Ref.Math_exp (eta scenario_coefs scenario_features);
              group := None; wage_usd := None |}).
  reflexivity.
Defined.

(** X13: until the coefficient resource has arrived, and when it holds no
    record, every state whose age and rating are finite numbers shows the
    same text: the formatted value of [Math.exp(0) * 1.08]. *)
Theorem display_before_load `{Runtime} (st : State) :
  is_finite (ToNumber (age_state st)) = true ->
  is_finite (ToNumber (rating_state st)) = true ->
  predicted_text (App (useCoefficients None) st) = fmtUSD (Math_exp 0 * USD_PER_EUR)
  /\ predicted_text (App (useCoefficients (Some [])) st)
     = fmtUSD (Math_exp 0 * USD_PER_EUR).
Proof.
  intros Ha Hr.
  assert (E : eta ∅ (features st) = 0).
  { unfold eta. rewrite !lookup_empty. simpl or_zero. cbn [features age rating].
    change (0 + 0) with 0.
    rewrite (F64.add_zero_mul_zero _ Ha), (F64.add_zero_mul_zero _ Hr). reflexivity. }
  split; cbn [predicted_text App useCoefficients collect fold_left];
    unfold predictedUSD, predict, TARGET_IS_LOG; rewrite E; reflexivity.
Qed.

(** The initial state, on the reference host: one dollar. *)
Lemma display_before_load_witness :
  predicted_text (App (H := Ref.runtime) (useCoefficients (H := Ref.runtime) None)
                    initial_state)
  = fmtUSD (H := Ref.runtime) (Math_exp (Runtime := Ref.runtime) 0 * USD_PER_EUR)
  /\ predicted_text (App (H := Ref.runtime) (useCoefficients (H := Ref.runtime) (Some []))
                       initial_state)
     = fmtUSD (H := Ref.runtime) (Math_exp (Runtime := Ref.runtime) 0 * USD_PER_EUR).
Proof.
  apply (display_before_load (H := Ref.runtime) initial_state); reflexivity.
Defined.
